(** * Event dispatch and the in-memory event bus of the cqrs package

    A shallow embedding of [events.go] (dispatcher, dispatch manager) and of
    the in-memory event bus, followed by the properties proved about them.

    Conventions.
    - A Go [error] value is [option error]: [None] is [nil].
    - An [interface{}] payload is [option iface]: [None] is the nil
      interface, [Some v] carries the dynamic type and the datum.
    - A handler is a Go closure; its effect on the rest of the program is a
      transformer of an application state [App].
    - Goroutines are transition systems over their program points; an
      unbuffered channel operation is a rendezvous of one sender and one
      receiver, and a select offers each of its receives.
    - The statements of a goroutine between two channel operations are one
      step; so are the write of [startReceiving] and the start of the
      receive loop in [ReceiveEvents].
    - [make] returns the next unused channel identity. *)

From stdpp Require Import gmap strings list.

Set Default Proof Using "Type".

(** ** Data model *)

Definition error := string.

Record iface := Iface { dyn_type : string; dyn_value : string }.

(** [reflect.Type]; [None] is the nil type returned for a nil interface. *)
Definition rtype := option string.

Definition TypeOf (v : option iface) : rtype := dyn_type <$> v.

Record VersionedEvent := mkVersionedEvent {
  ID : string;
  CorrelationID : string;
  SourceID : string;
  Version : Z;
  EventType : string;
  Created : Z;
  Event : option iface
}.

#[global] Instance iface_eq_dec : EqDecision iface :=
  ltac:(solve_decision).

#[global] Instance VersionedEvent_eq_dec : EqDecision VersionedEvent :=
  ltac:(solve_decision).

(** ** The map based dispatcher *)

Module Dispatcher.

(** Ghost record of a handler invocation: which list the handler came from
    and its position in that list. *)
Inductive slot := TypeSpecific (i : nat) | Global (i : nat).

Section WithApp.
Context {App : Type}.

Definition VersionedEventHandler : Type :=
  VersionedEvent -> App -> App * option error.

Record MapBasedVersionedEventDispatcher := mkDispatcher {
  registry : gmap rtype (list VersionedEventHandler);
  globalHandlers : list VersionedEventHandler
}.

Definition NewVersionedEventDispatcher : MapBasedVersionedEventDispatcher :=
  {| registry := ∅; globalHandlers := [] |}.

Definition RegisterEventHandler (event : option iface)
    (handler : VersionedEventHandler) (m : MapBasedVersionedEventDispatcher)
    : MapBasedVersionedEventDispatcher :=
  let eventType := TypeOf event in
  match registry m !! eventType with
  | Some handlers =>
      {| registry := <[eventType := handlers ++ [handler]]> (registry m);
         globalHandlers := globalHandlers m |}
  | None =>
      {| registry := <[eventType := [handler]]> (registry m);
         globalHandlers := globalHandlers m |}
  end.

Definition RegisterGlobalHandler (handler : VersionedEventHandler)
    (m : MapBasedVersionedEventDispatcher) : MapBasedVersionedEventDispatcher :=
  {| registry := registry m;
     globalHandlers := globalHandlers m ++ [handler] |}.

(** [for _, handler := range handlers { if err := handler(event); err != nil
    { return err } }], started at position [i], with the invocations so far
    in [calls]. *)
Fixpoint range_handlers (mk : nat -> slot) (i : nat)
    (handlers : list VersionedEventHandler) (event : VersionedEvent)
    (st : App) (calls : list slot) : list slot * App * option error :=
  match handlers with
  | [] => (calls, st, None)
  | handler :: rest =>
      match handler event st with
      | (st', Some err) => (calls ++ [mk i], st', Some err)
      | (st', None) =>
          range_handlers mk (S i) rest event st' (calls ++ [mk i])
      end
  end.

Definition DispatchEvent (m : MapBasedVersionedEventDispatcher)
    (event : VersionedEvent) (st : App) : list slot * App * option error :=
  let eventType := TypeOf (Event event) in
  let '(calls, st1, err) :=
    match registry m !! eventType with
    | Some handlers => range_handlers TypeSpecific 0 handlers event st []
    | None => ([], st, None)
    end in
  match err with
  | Some e => (calls, st1, Some e)
  | None => range_handlers Global 0 (globalHandlers m) event st1 calls
  end.

(** A sequence of set-up calls on a dispatcher. *)
Inductive registration :=
  | RegEvent (event : option iface) (handler : VersionedEventHandler)
  | RegGlobal (handler : VersionedEventHandler).

Definition register (m : MapBasedVersionedEventDispatcher) (r : registration)
    : MapBasedVersionedEventDispatcher :=
  match r with
  | RegEvent event handler => RegisterEventHandler event handler m
  | RegGlobal handler => RegisterGlobalHandler handler m
  end.

Definition register_all (rs : list registration)
    : MapBasedVersionedEventDispatcher :=
  foldl register NewVersionedEventDispatcher rs.

(** The handlers a sequence of set-up calls registers for type [t], and the
    global ones, each in the order of the calls. *)
Fixpoint registered_for (t : rtype) (rs : list registration)
    : list VersionedEventHandler :=
  match rs with
  | [] => []
  | RegEvent event handler :: rs' =>
      if decide (TypeOf event = t) then handler :: registered_for t rs'
      else registered_for t rs'
  | RegGlobal _ :: rs' => registered_for t rs'
  end.

Fixpoint registered_global (rs : list registration)
    : list VersionedEventHandler :=
  match rs with
  | [] => []
  | RegEvent _ _ :: rs' => registered_global rs'
  | RegGlobal handler :: rs' => handler :: registered_global rs'
  end.

(** [succeeds hs event st st']: the handlers [hs], called one after the
    other on [event] from state [st], all return nil and leave [st']. *)
Inductive succeeds (event : VersionedEvent)
    : list VersionedEventHandler -> App -> App -> Prop :=
  | succeeds_nil st : succeeds event [] st st
  | succeeds_cons h hs st st' st'' :
      h event st = (st', None) ->
      succeeds event hs st' st'' ->
      succeeds event (h :: hs) st st''.

End WithApp.

Arguments VersionedEventHandler : clear implicits.
Arguments MapBasedVersionedEventDispatcher : clear implicits.
Arguments registration : clear implicits.

End Dispatcher.

(** ** Channels and the values they carry *)

(** A channel is the identity [make] returned; channels are unbuffered
    throughout ([make(chan T)] and [make(chan T, 0)]). *)
Definition chan := nat.

Record VersionedEventTransactedAccept := mkAccept {
  AcceptedEvent : VersionedEvent;
  ProcessedSuccessfully : chan
}.

Inductive value :=
  | VEvent (e : VersionedEvent)
  | VBool (b : bool)
  | VError (err : option error)
  | VChanError (c : chan)
  | VAccept (a : VersionedEventTransactedAccept).

(** Modelled from the spec: the TypeRegistry interface is declared outside
    the source at hand; it is the set of registered payload types. *)
Definition TypeRegistry := gset rtype.

Definition RegisterType (event : option iface) (r : TypeRegistry)
    : TypeRegistry := {[ TypeOf event ]} ∪ r.

(** A value of the interface type is [option TypeRegistry]: [None] is the
    nil interface, on which a method call panics. *)

Record VersionedEventReceiverOptions := mkOptions {
  OptTypeRegistry : option TypeRegistry;
  Close : chan;
  Error : chan;
  ReceiveEvent : chan;
  Exclusive : bool
}.

(** ** The dispatch manager and its Listen loop *)

Module Manager.
Import Dispatcher.

(** What [log.Println] is called with. *)
Inductive LogLine :=
  | LogDispatchEvent (e : VersionedEvent)
  | LogErrorDispatching (err : error)
  | LogDispatchSuccessful
  | LogStopping
  | LogStopped
  | LogErrorReceived (err : option error).

(** Program points of [Listen] at which the goroutine waits or has ended. *)
Inductive listen_pc :=
  | LSelect
  | LAck (ack : chan)
  | LCloseSend (closeSignal : chan)
  | LCloseWait (closeSignal : chan)
  | LReturned (err : option error).

Inductive action :=
  | Recv (c : chan) (v : value)
  | Sent.

Section WithApp.
Context {App : Type}.

Record VersionedEventDispatchManager := mkManager {
  versionedEventDispatcher : MapBasedVersionedEventDispatcher App;
  typeRegistry : option TypeRegistry
}.

Definition NewVersionedEventDispatchManager (registry : option TypeRegistry)
    : VersionedEventDispatchManager :=
  {| versionedEventDispatcher := NewVersionedEventDispatcher;
     typeRegistry := registry |}.

(** [m.typeRegistry.RegisterType(event)] comes first: on a nil registry it
    panics, which is [None], and nothing is registered. *)
Definition RegisterEventHandler (event : option iface)
    (handler : VersionedEventHandler App) (m : VersionedEventDispatchManager)
    : option VersionedEventDispatchManager :=
  match typeRegistry m with
  | None => None
  | Some registry =>
      Some {| versionedEventDispatcher :=
                Dispatcher.RegisterEventHandler event handler
                  (versionedEventDispatcher m);
              typeRegistry := Some (RegisterType event registry) |}
  end.

Definition RegisterGlobalHandler (handler : VersionedEventHandler App)
    (m : VersionedEventDispatchManager) : VersionedEventDispatchManager :=
  {| versionedEventDispatcher :=
       Dispatcher.RegisterGlobalHandler handler (versionedEventDispatcher m);
     typeRegistry := typeRegistry m |}.

(** The state of a running [Listen] call. [l_calls] is the ghost record of
    the handler invocations made so far. *)
Record Listening := mkListening {
  l_pc : listen_pc;
  l_manager : VersionedEventDispatchManager;
  l_stop : chan;
  l_options : VersionedEventReceiverOptions;
  l_app : App;
  l_log : list LogLine;
  l_calls : list (VersionedEvent * slot)
}.

Definition at_pc (pc : listen_pc) (l : Listening) : Listening :=
  {| l_pc := pc; l_manager := l_manager l; l_stop := l_stop l;
     l_options := l_options l; l_app := l_app l; l_log := l_log l;
     l_calls := l_calls l |}.

Definition println (line : LogLine) (l : Listening) : Listening :=
  {| l_pc := l_pc l; l_manager := l_manager l; l_stop := l_stop l;
     l_options := l_options l; l_app := l_app l;
     l_log := l_log l ++ [line]; l_calls := l_calls l |}.

(** The three [make] calls and the options literal at the head of
    [Listen]; [next] is the first unused channel identity. *)
Definition Listen_options (next : chan) (m : VersionedEventDispatchManager)
    (exclusive : bool) : chan * VersionedEventReceiverOptions :=
  let closeChannel := next in
  let errorChannel := S next in
  let receiveEventChannel := S (S next) in
  (S (S (S next)),
   mkOptions (typeRegistry m) closeChannel errorChannel receiveEventChannel
     exclusive).

(** [if err := m.receiver.ReceiveEvents(options); err != nil { return err }]
    given what the receiver returned. *)
Definition Listen_enter (m : VersionedEventDispatchManager) (app : App)
    (stop : chan) (options : VersionedEventReceiverOptions)
    (started : option error) : Listening :=
  {| l_pc := match started with
             | Some err => LReturned (Some err)
             | None => LSelect
             end;
     l_manager := m; l_stop := stop; l_options := options; l_app := app;
     l_log := []; l_calls := [] |}.

(** [case event := <-receiveEventChannel]: up to the send of the
    acknowledgment. *)
Definition on_event (event : VersionedEventTransactedAccept) (l : Listening)
    : Listening :=
  let l1 := println (LogDispatchEvent (AcceptedEvent event)) l in
  let '(calls, app', err) :=
    DispatchEvent (versionedEventDispatcher (l_manager l1))
      (AcceptedEvent event) (l_app l1) in
  let l2 :=
    {| l_pc := LAck (ProcessedSuccessfully event);
       l_manager := l_manager l1; l_stop := l_stop l1;
       l_options := l_options l1; l_app := app'; l_log := l_log l1;
       l_calls := l_calls l1 ++ map (pair (AcceptedEvent event)) calls |} in
  match err with
  | Some e => println (LogErrorDispatching e) l2
  | None => l2
  end.

(** A receive completes on channel [c] with value [v]. *)
Definition listen_recv (next : chan) (l : Listening) (c : chan) (v : value)
    : option (chan * Listening) :=
  match l_pc l with
  | LSelect =>
      if decide (c = ReceiveEvent (l_options l)) then
        match v with
        | VAccept event => Some (next, on_event event l)
        | _ => None
        end
      else if decide (c = l_stop l) then
        match v with
        | VBool _ =>
            let closeSignal := next in
            Some (S next, at_pc (LCloseSend closeSignal) (println LogStopping l))
        | _ => None
        end
      else if decide (c = Error (l_options l)) then
        match v with
        | VError err =>
            Some (next, at_pc (LReturned err) (println (LogErrorReceived err) l))
        | _ => None
        end
      else None
  | LCloseWait closeSignal =>
      if decide (c = closeSignal) then
        match v with
        | VError err => Some (next, at_pc (LReturned err) (println LogStopped l))
        | _ => None
        end
      else None
  | LAck _ | LCloseSend _ | LReturned _ => None
  end.

(** The send the goroutine is blocked on, if any, and the state once it
    completes. *)
Definition listen_send (l : Listening) : option (chan * value * Listening) :=
  match l_pc l with
  | LAck ack =>
      Some (ack, VBool true, at_pc LSelect (println LogDispatchSuccessful l))
  | LCloseSend closeSignal =>
      Some (Close (l_options l), VChanError closeSignal,
            at_pc (LCloseWait closeSignal) l)
  | LSelect | LCloseWait _ | LReturned _ => None
  end.

(** [Listen] up to its loop, against a receiver whose [ReceiveEvents]
    answers [started options]. *)
Definition Listen (next : chan) (m : VersionedEventDispatchManager)
    (app : App) (stop : chan) (exclusive : bool)
    (started : VersionedEventReceiverOptions -> option error)
    : chan * Listening :=
  let '(next', options) := Listen_options next m exclusive in
  (next', Listen_enter m app stop options (started options)).

(** [Listen] on its own: what the goroutine does when its environment
    completes the receive [Recv c v], or takes the value it is sending. *)
Definition listen_step (a : action) (st : chan * Listening)
    : option (chan * Listening) :=
  match a with
  | Recv c v => listen_recv st.1 st.2 c v
  | Sent =>
      match listen_send st.2 with
      | Some (_, _, l') => Some (st.1, l')
      | None => None
      end
  end.

Fixpoint listen_run (acts : list action) (st : chan * Listening)
    : option (chan * Listening) :=
  match acts with
  | [] => Some st
  | a :: acts' =>
      match listen_step a st with
      | Some st' => listen_run acts' st'
      | None => None
      end
  end.

End WithApp.

Arguments VersionedEventDispatchManager : clear implicits.
Arguments Listening : clear implicits.

End Manager.

(** ** The in-memory event bus *)

Module Bus.

Record InMemoryEventBus := mkBus {
  publishedEventsChannel : chan;
  startReceiving : bool
}.

Definition NewInMemoryEventBus (next : chan) : chan * InMemoryEventBus :=
  (S next, {| publishedEventsChannel := next; startReceiving := false |}).

(** Program points of [PublishEvents]. *)
Inductive publish_pc :=
  | PRange (events : list VersionedEvent)
  | PReturned (err : option error).

Definition PublishEvents (bus : InMemoryEventBus)
    (events : list VersionedEvent) : publish_pc :=
  if negb (startReceiving bus) then PReturned None else PRange events.

Definition publish_send (bus : InMemoryEventBus) (pc : publish_pc)
    : option (chan * value * publish_pc) :=
  match pc with
  | PRange (event :: rest) =>
      Some (publishedEventsChannel bus, VEvent event, PRange rest)
  | PRange [] | PReturned _ => None
  end.

(** The range loop is exhausted: [return nil]. *)
Definition publish_tau (pc : publish_pc) : option publish_pc :=
  match pc with
  | PRange [] => Some (PReturned None)
  | PRange (_ :: _) | PReturned _ => None
  end.

(** Program points of the goroutine started by [ReceiveEvents]. *)
Inductive loop_pc :=
  | BSelect
  | BReply (ch : chan)
  | BDeliver (versionedEvent : VersionedEvent) (ackCh : chan)
  | BAwaitAck (ackCh : chan).

(** The goroutine: the variables its closure captures and its program
    point. *)
Record receive_loop := mkLoop {
  b_options : VersionedEventReceiverOptions;
  b_published : chan;
  b_pc : loop_pc
}.

Definition loop_at (pc : loop_pc) (g : receive_loop) : receive_loop :=
  {| b_options := b_options g; b_published := b_published g; b_pc := pc |}.

(** [ReceiveEvents]: the updated bus, the goroutine it starts and its
    result. *)
Definition ReceiveEvents (bus : InMemoryEventBus)
    (options : VersionedEventReceiverOptions)
    : InMemoryEventBus * receive_loop * option error :=
  ({| publishedEventsChannel := publishedEventsChannel bus;
      startReceiving := true |},
   {| b_options := options; b_published := publishedEventsChannel bus;
      b_pc := BSelect |},
   None).

Definition loop_recv (next : chan) (g : receive_loop) (c : chan) (v : value)
    : option (chan * receive_loop) :=
  match b_pc g with
  | BSelect =>
      if decide (c = Close (b_options g)) then
        match v with
        | VChanError ch => Some (next, loop_at (BReply ch) g)
        | _ => None
        end
      else if decide (c = b_published g) then
        match v with
        | VEvent versionedEvent =>
            let ackCh := next in
            Some (S next, loop_at (BDeliver versionedEvent ackCh) g)
        | _ => None
        end
      else None
  | BAwaitAck ackCh =>
      if decide (c = ackCh) then
        match v with
        | VBool _ => Some (next, loop_at BSelect g)
        | _ => None
        end
      else None
  | BReply _ | BDeliver _ _ => None
  end.

Definition loop_send (g : receive_loop) : option (chan * value * receive_loop) :=
  match b_pc g with
  | BReply ch => Some (ch, VError None, loop_at BSelect g)
  | BDeliver versionedEvent ackCh =>
      Some (ReceiveEvent (b_options g),
            VAccept (mkAccept versionedEvent ackCh),
            loop_at (BAwaitAck ackCh) g)
  | BSelect | BAwaitAck _ => None
  end.

End Bus.

(** ** The goroutines put together

    One client goroutine makes a sequence of [PublishEvents] calls, one
    goroutine runs [Listen] against the bus, the goroutine started by
    [ReceiveEvents] runs the receive loop, and the caller of [Listen] holds
    the sending end of [stop]. *)

Module System.
Import Dispatcher Manager Bus.

Inductive party := Client | Loop | Listener | Caller.

#[global] Instance party_eq_dec : EqDecision party :=
  ltac:(solve_decision).

(** What an execution shows: completed channel operations, and the calls
    and returns of [Listen] and [PublishEvents]. *)
Inductive obs :=
  | OComm (from to : party) (c : chan) (v : value)
  | OListen
  | OCall (events : list VersionedEvent)
  | OReturn (err : option error).

Inductive label :=
  | ListenCall
  | PublishCall
  | PublishReturn
  | Sync (from to : party).

Definition returned_obs (pc : publish_pc) : list obs :=
  match pc with
  | PReturned err => [OReturn err]
  | PRange _ => []
  end.

Section WithApp.
Context {App : Type}.

Inductive listen_thread :=
  | Pending (m : VersionedEventDispatchManager App) (app : App)
      (exclusive : bool)
  | Started (l : Listening App).

Record client := mkClient {
  c_call : option publish_pc;
  c_script : list (list VersionedEvent)
}.

Record system := mkSystem {
  s_next : chan;
  s_bus : InMemoryEventBus;
  s_loop : option receive_loop;
  s_listener : listen_thread;
  s_stop : chan;
  s_caller : bool;
  s_client : client;
  s_trace : list obs
}.

Definition init (m : VersionedEventDispatchManager App) (app : App)
    (exclusive : bool) (script : list (list VersionedEvent)) : system :=
  let '(next, bus) := NewInMemoryEventBus 0 in
  {| s_next := S next; s_bus := bus; s_loop := None;
     s_listener := Pending m app exclusive; s_stop := next;
     s_caller := true;
     s_client := {| c_call := None; c_script := script |};
     s_trace := [] |}.

Definition with_client (c : client) (s : system) : system :=
  {| s_next := s_next s; s_bus := s_bus s; s_loop := s_loop s;
     s_listener := s_listener s; s_stop := s_stop s; s_caller := s_caller s;
     s_client := c; s_trace := s_trace s |}.

Definition with_loop (next : chan) (g : receive_loop) (s : system) : system :=
  {| s_next := next; s_bus := s_bus s; s_loop := Some g;
     s_listener := s_listener s; s_stop := s_stop s; s_caller := s_caller s;
     s_client := s_client s; s_trace := s_trace s |}.

Definition with_listener (next : chan) (l : Listening App) (s : system)
    : system :=
  {| s_next := next; s_bus := s_bus s; s_loop := s_loop s;
     s_listener := Started l; s_stop := s_stop s; s_caller := s_caller s;
     s_client := s_client s; s_trace := s_trace s |}.

Definition with_caller (b : bool) (s : system) : system :=
  {| s_next := s_next s; s_bus := s_bus s; s_loop := s_loop s;
     s_listener := s_listener s; s_stop := s_stop s; s_caller := b;
     s_client := s_client s; s_trace := s_trace s |}.

Definition observe (os : list obs) (s : system) : system :=
  {| s_next := s_next s; s_bus := s_bus s; s_loop := s_loop s;
     s_listener := s_listener s; s_stop := s_stop s; s_caller := s_caller s;
     s_client := s_client s; s_trace := s_trace s ++ os |}.

(** The send party [p] is blocked on, and the system once it completes. *)
Definition offer (p : party) (s : system) : option (chan * value * system) :=
  match p with
  | Client =>
      match c_call (s_client s) with
      | Some pc =>
          match publish_send (s_bus s) pc with
          | Some (c, v, pc') =>
              Some (c, v,
                    with_client (mkClient (Some pc') (c_script (s_client s))) s)
          | None => None
          end
      | None => None
      end
  | Loop =>
      match s_loop s with
      | Some g =>
          match loop_send g with
          | Some (c, v, g') => Some (c, v, with_loop (s_next s) g' s)
          | None => None
          end
      | None => None
      end
  | Listener =>
      match s_listener s with
      | Started l =>
          match listen_send l with
          | Some (c, v, l') => Some (c, v, with_listener (s_next s) l' s)
          | None => None
          end
      | Pending _ _ _ => None
      end
  | Caller =>
      if s_caller s then Some (s_stop s, VBool true, with_caller false s)
      else None
  end.

(** Party [p] completes a receive of [v] on [c]. *)
Definition accept (p : party) (c : chan) (v : value) (s : system)
    : option system :=
  match p with
  | Loop =>
      match s_loop s with
      | Some g =>
          match loop_recv (s_next s) g c v with
          | Some (next, g') => Some (with_loop next g' s)
          | None => None
          end
      | None => None
      end
  | Listener =>
      match s_listener s with
      | Started l =>
          match listen_recv (s_next s) l c v with
          | Some (next, l') => Some (with_listener next l' s)
          | None => None
          end
      | Pending _ _ _ => None
      end
  | Client | Caller => None
  end.

Definition step (a : label) (s : system) : option system :=
  match a with
  | ListenCall =>
      match s_listener s with
      | Pending m app exclusive =>
          let '(next, options) := Listen_options (s_next s) m exclusive in
          let '(bus, g, started) := ReceiveEvents (s_bus s) options in
          Some {| s_next := next; s_bus := bus; s_loop := Some g;
                  s_listener :=
                    Started (Listen_enter m app (s_stop s) options started);
                  s_stop := s_stop s; s_caller := s_caller s;
                  s_client := s_client s;
                  s_trace := s_trace s ++ [OListen] |}
      | Started _ => None
      end
  | PublishCall =>
      match c_call (s_client s), c_script (s_client s) with
      | Some (PRange _), _ => None
      | _, [] => None
      | _, events :: script =>
          let pc := PublishEvents (s_bus s) events in
          Some (observe (OCall events :: returned_obs pc)
                  (with_client (mkClient (Some pc) script) s))
      end
  | PublishReturn =>
      match c_call (s_client s) with
      | Some pc =>
          match publish_tau pc with
          | Some pc' =>
              Some (observe (returned_obs pc')
                      (with_client (mkClient (Some pc') (c_script (s_client s)))
                         s))
          | None => None
          end
      | None => None
      end
  | Sync p q =>
      if decide (p = q) then None
      else
        match offer p s with
        | Some (c, v, s1) =>
            match accept q c v s1 with
            | Some s2 => Some (observe [OComm p q c v] s2)
            | None => None
            end
        | None => None
        end
  end.

Fixpoint run (ls : list label) (s : system) : option system :=
  match ls with
  | [] => Some s
  | a :: ls' =>
      match step a s with
      | Some s' => run ls' s'
      | None => None
      end
  end.

Definition reachable_from (s0 s : system) : Prop :=
  exists ls, run ls s0 = Some s.

Definition listener_pc (s : system) : option listen_pc :=
  match s_listener s with
  | Started l => Some (l_pc l)
  | Pending _ _ _ => None
  end.

Definition loop_pc_of (s : system) : option loop_pc :=
  b_pc <$> s_loop s.

End WithApp.

Arguments system : clear implicits.
Arguments listen_thread : clear implicits.

End System.

(** ** Reading an execution

    The handshake between the three goroutines as it shows in the list of
    observations, and the invariant that ties the program points of the
    goroutines together. *)

Module Trace.
Import Dispatcher Manager Bus System.

(** The steps of the hand-over of one event. *)
Inductive handshake :=
  | Pub (e : VersionedEvent)
  | Del (e : VersionedEvent) (ack : chan)
  | Ack (ack : chan).

Definition handshake_of (o : obs) : option handshake :=
  match o with
  | OComm Client Loop _ (VEvent e) => Some (Pub e)
  | OComm Loop Listener _ (VAccept a) =>
      Some (Del (AcceptedEvent a) (ProcessedSuccessfully a))
  | OComm Listener Loop c (VBool _) => Some (Ack c)
  | _ => None
  end.

Definition handshakes (t : list obs) : list handshake := omap handshake_of t.

Definition published_of (h : handshake) : option VersionedEvent :=
  match h with Pub e => Some e | _ => None end.

Definition delivered_of (h : handshake) : option VersionedEvent :=
  match h with Del e _ => Some e | _ => None end.

(** The events handed to the receive loop, and those the loop handed to
    [Listen], in the order of the execution. *)
Definition published (t : list obs) : list VersionedEvent :=
  omap published_of (handshakes t).

Definition delivered (t : list obs) : list VersionedEvent :=
  omap delivered_of (handshakes t).

(** Where the receive loop stands in the hand-over. *)
Inductive phase :=
  | Idle
  | Holding (e : VersionedEvent)
  | Waiting (ack : chan).

Definition advance (ph : phase) (h : handshake) : option phase :=
  match h, ph with
  | Pub e, Idle => Some (Holding e)
  | Del e ack, Holding e' => if decide (e = e') then Some (Waiting ack) else None
  | Ack c, Waiting ack => if decide (c = ack) then Some Idle else None
  | _, _ => None
  end.

Fixpoint track (ph : phase) (hs : list handshake) : option phase :=
  match hs with
  | [] => Some ph
  | h :: hs' =>
      match advance ph h with
      | Some ph' => track ph' hs'
      | None => None
      end
  end.

Definition phase_of (pc : option loop_pc) : phase :=
  match pc with
  | Some (BDeliver e _) => Holding e
  | Some (BAwaitAck ack) => Waiting ack
  | Some BSelect | Some (BReply _) | None => Idle
  end.

(** The event the loop has taken and not yet handed on. *)
Definition held (ph : phase) : list VersionedEvent :=
  match ph with
  | Holding e => [e]
  | Idle | Waiting _ => []
  end.

(** The calls of the client: whether [ReceiveEvents] has run, and the part
    of the current batch still to be sent. *)
Definition call_state : Type := bool * option (list VersionedEvent).

Definition call_advance (st : call_state) (o : obs) : option call_state :=
  match o with
  | OListen => Some (true, st.2)
  | OCall events =>
      match st.2 with
      | None => Some (st.1, Some (if st.1 then events else []))
      | Some _ => None
      end
  | OComm Client Loop _ (VEvent e) =>
      match st.2 with
      | Some (e' :: rest) =>
          if decide (e = e') then Some (st.1, Some rest) else None
      | _ => None
      end
  | OReturn _ =>
      match st.2 with
      | Some [] => Some (st.1, None)
      | _ => None
      end
  | OComm _ _ _ _ => Some st
  end.

Fixpoint call_track (st : call_state) (t : list obs) : option call_state :=
  match t with
  | [] => Some st
  | o :: t' =>
      match call_advance st o with
      | Some st' => call_track st' t'
      | None => None
      end
  end.

Definition pending_of (call : option publish_pc) : option (list VersionedEvent) :=
  match call with
  | Some (PRange rest) => Some rest
  | Some (PReturned _) | None => None
  end.


(** The channels an observation names. *)
Definition chans_of (o : obs) : list chan :=
  match o with
  | OComm _ _ c (VChanError c') => [c; c']
  | OComm _ _ c (VAccept a) => [c; ProcessedSuccessfully a]
  | OComm _ _ c _ => [c]
  | _ => []
  end.

Definition fresh_for (c : chan) (t : list obs) : Prop :=
  Forall (fun o => c ∉ chans_of o) t.

(** The program points [Listen] and the receive loop can be at together;
    [n] bounds the channels made so far. *)
Definition coupled (n : chan) (lpc : listen_pc) (bpc : loop_pc) : Prop :=
  match lpc, bpc with
  | LSelect, BSelect => True
  | LSelect, BDeliver _ a => 5 ≤ a < n
  | LAck a, BAwaitAck a' => a = a' ∧ 5 ≤ a < n
  | LCloseSend c, BSelect => 5 ≤ c < n
  | LCloseSend c, BDeliver _ a => 5 ≤ c < n ∧ 5 ≤ a < n
  | LCloseWait c, BReply c' => c = c' ∧ 5 ≤ c < n
  | LReturned None, BSelect => True
  | LReturned None, BDeliver _ a => 5 ≤ a < n
  | _, _ => False
  end.

Section WithApp.
Context {App : Type}.

Definition threads_ok (s : system App) : Prop :=
  match s_listener s with
  | Pending _ _ _ =>
      s_loop s = None ∧ startReceiving (s_bus s) = false ∧ s_next s = 2
  | Started l =>
      ∃ g, s_loop s = Some g ∧ startReceiving (s_bus s) = true
        ∧ b_options g = l_options l ∧ b_published g = 0
        ∧ Close (l_options l) = 2 ∧ Error (l_options l) = 3
        ∧ ReceiveEvent (l_options l) = 4 ∧ l_stop l = 1
        ∧ 5 ≤ s_next s ∧ coupled (s_next s) (l_pc l) (b_pc g)
  end.

Record invariant (s : system App) : Prop := mkInvariant {
  inv_bus : publishedEventsChannel (s_bus s) = 0;
  inv_stop : s_stop s = 1;
  inv_threads : threads_ok s;
  inv_phase :
    track Idle (handshakes (s_trace s)) = Some (phase_of (loop_pc_of s));
  inv_calls :
    call_track (false, None) (s_trace s)
    = Some (startReceiving (s_bus s), pending_of (c_call (s_client s)));
  inv_chans :
    Forall (fun o => Forall (fun c => c < s_next s) (chans_of o)) (s_trace s)
}.

End WithApp.

End Trace.

(** ** Sample values *)

Module Sample.
Import Dispatcher Manager Bus System.

Definition event (version : Z) : VersionedEvent :=
  mkVersionedEvent "e" "c" "account" version "AccountCreated" 0
    (Some (Iface "AccountCreated" "payload")).

Definition other_event : VersionedEvent :=
  mkVersionedEvent "e" "c" "account" 1 "Unhandled" 0
    (Some (Iface "Unhandled" "payload")).

(** Handlers over a counter: one that adds to it and returns nil, one that
    adds to it and returns an error. *)
Definition adds (k : nat) : VersionedEventHandler nat :=
  fun _ st => (st + k, None).

Definition fails (k : nat) (msg : error) : VersionedEventHandler nat :=
  fun _ st => (st + k, Some msg).

Definition manager : VersionedEventDispatchManager nat :=
  Manager.RegisterGlobalHandler (adds 100)
    (default (NewVersionedEventDispatchManager (Some ∅))
       (Manager.RegisterEventHandler (Some (Iface "AccountCreated" ""))
          (fails 1 "boom")
          (NewVersionedEventDispatchManager (Some ∅)))).

Definition start (script : list (list VersionedEvent)) : system nat :=
  init manager 0 false script.

Definition registrations : list (registration nat) :=
  [RegEvent (Some (Iface "AccountCreated" "")) (adds 1);
   RegGlobal (adds 100)].

(** [Listen] of [manager] at its select, with [stop] the channel 1 and
    the channels 2, 3 and 4 made for the receiver. *)
Definition listening : Listening nat :=
  (Listen 2 manager 0 1 false (fun _ => None)).2.

End Sample.

(** ** Slices of events *)

Module Sorting.

(** [ByCreated]: a slice of events seen through [sort.Interface]. An index
    is a Go [int]; indexing outside the slice panics, which is [None].
    [Len] and [Swap] are modelled; [Less] is a call of the standard
    library's [time.Time.Before] and is left out. *)
Abbreviation ByCreated := (list VersionedEvent) (only parsing).

Definition index (c : ByCreated) (i : Z) : option VersionedEvent :=
  if decide (0 ≤ i)%Z then c !! Z.to_nat i else None.

Definition Len (c : ByCreated) : Z := Z.of_nat (length c).

(** [c[i], c[j] = c[j], c[i]]: both operands are read, then [c[i]] and
    [c[j]] are written in that order. *)
Definition Swap (c : ByCreated) (i j : Z) : option ByCreated :=
  match index c i, index c j with
  | Some x, Some y =>
      Some (<[Z.to_nat j := x]> (<[Z.to_nat i := y]> c))
  | _, _ => None
  end.

End Sorting.

(** ** Reading an execution, continued *)

Module Ledger.
Import Dispatcher Manager Bus System Trace.

(** The events of the batches passed to [PublishEvents] once
    [ReceiveEvents] had run; [active] tells whether it has run before [t]. *)
Fixpoint accepted (active : bool) (t : list obs) : list VersionedEvent :=
  match t with
  | [] => []
  | OListen :: t' => accepted true t'
  | OCall events :: t' =>
      (if active then events else []) ++ accepted active t'
  | _ :: t' => accepted active t'
  end.

(** The part of the batch the current call has still to send. *)
Definition unsent (call : option publish_pc) : list VersionedEvent :=
  match call with
  | Some (PRange rest) => rest
  | Some (PReturned _) | None => []
  end.

(** The events [Listen] logged before dispatching them. *)
Definition logged_event (line : LogLine) : option VersionedEvent :=
  match line with
  | LogDispatchEvent e => Some e
  | _ => None
  end.

Definition logged_events (log : list LogLine) : list VersionedEvent :=
  omap logged_event log.

(** The communications of the protocol: who sends what to whom and on
    which channel. The bus made channel 0, the caller channel 1 for [stop],
    [Listen] the channels 2, 3 and 4 for [Close], [Error] and
    [ReceiveEvent]; the channels from 5 on are made per item or per stop. *)
Definition protocol_obs (o : obs) : Prop :=
  match o with
  | OListen | OCall _ => True
  | OReturn err => err = None
  | OComm Client Loop c (VEvent _) => c = 0
  | OComm Loop Listener c (VAccept a) => c = 4 /\ 5 <= ProcessedSuccessfully a
  | OComm Listener Loop c (VBool b) => b = true /\ 5 <= c
  | OComm Caller Listener c (VBool _) => c = 1
  | OComm Listener Loop c (VChanError cs) => c = 2 /\ 5 <= cs
  | OComm Loop Listener c (VError err) => err = None /\ 5 <= c
  | OComm _ _ _ _ => False
  end.

(** Every delivery carries an acknowledgment channel no earlier observation
    names. *)
Definition deliveries_fresh (t : list obs) : Prop :=
  forall t1 c a t2,
    t = t1 ++ OComm Loop Listener c (VAccept a) :: t2 ->
    fresh_for (ProcessedSuccessfully a) t1.

(** Whether an observation is a communication on a channel. *)
Definition is_comm (o : obs) : bool :=
  match o with
  | OComm _ _ _ _ => true
  | _ => false
  end.

(** Every value sent on a response channel follows the close request that
    carried that channel, with no communication in between. *)
Definition replies_answer (t : list obs) : Prop :=
  forall t1 p q c err t2,
    t = t1 ++ OComm p q c (VError err) :: t2 ->
    exists u1 p' q' c' u2,
      t1 = u1 ++ OComm p' q' c' (VChanError c) :: u2
      /\ Forall (fun o => is_comm o = false) u2.

Section WithApp.
Context {App : Type}.

(** The handlers the dispatcher holds for a type; a missing key gives the
    empty list. *)
Definition handlers_for (m : MapBasedVersionedEventDispatcher App)
    (t : rtype) : list (VersionedEventHandler App) :=
  default [] (registry m !! t).

(** The invocations of a dispatch in which every handler is called. *)
Definition all_slots (m : MapBasedVersionedEventDispatcher App)
    (event : VersionedEvent) : list slot :=
  map TypeSpecific (seq 0 (length (handlers_for m (TypeOf (Event event)))))
  ++ map Global (seq 0 (length (globalHandlers m))).

(** The application state after dispatching [events] one after the other,
    whatever each dispatch returns. *)
Definition dispatch_all (m : MapBasedVersionedEventDispatcher App)
    (events : list VersionedEvent) (st : App) : App :=
  foldl (fun st event => (DispatchEvent m event st).1.2) st events.

(** What [Listen] has done so far, against what the loop delivered. *)
Definition dispatched_ok (m : VersionedEventDispatchManager App) (app : App)
    (s : system App) : Prop :=
  match s_listener s with
  | Pending m' app' _ =>
      m' = m /\ app' = app /\ delivered (s_trace s) = []
  | Started l =>
      l_manager l = m
      /\ logged_events (l_log l) = delivered (s_trace s)
      /\ l_app l
         = dispatch_all (versionedEventDispatcher m) (delivered (s_trace s))
             app
  end.

(** The acknowledgment channel of the event the loop holds is unused. *)
Definition held_ack_fresh (s : system App) : Prop :=
  forall e a, loop_pc_of s = Some (BDeliver e a) -> fresh_for a (s_trace s).

(** The response channel the loop is about to answer on came with the last
    communication. *)
Definition request_pending (s : system App) : Prop :=
  forall cs,
    loop_pc_of s = Some (BReply cs) ->
    exists u1 p q c u2,
      s_trace s = u1 ++ OComm p q c (VChanError cs) :: u2
      /\ Forall (fun o => is_comm o = false) u2.

(** [Listen] is in its loop and the stop case has not fired. *)
Definition listening_on (s : system App) : Prop :=
  (exists l, s_listener s = Started l /\ l_pc l = LSelect)
  \/ (exists l a, s_listener s = Started l /\ l_pc l = LAck a).




End WithApp.

End Ledger.

(** ** More sample values *)

Module Cases.
Import Dispatcher Manager Bus System.

Definition was (created : Z) : VersionedEvent :=
  mkVersionedEvent "e" "c" "account" 1 "AccountCreated" created
    (Some (Iface "AccountCreated" "payload")).

Definition slice : list VersionedEvent := [was 3; was 1; was 2].

Definition attach : list label := [ListenCall; PublishCall].

Definition stop_and_close : list label :=
  [ListenCall; Sync Caller Listener; Sync Listener Loop; Sync Loop Listener].

Definition deliver_one : list label :=
  [ListenCall; PublishCall; Sync Client Loop; Sync Loop Listener].

End Cases.

(** * Properties *)

Import Dispatcher Manager Bus System Trace.

(** ** The dispatcher *)

Section DispatcherFacts.
Context {App : Type}.
Implicit Types (m : MapBasedVersionedEventDispatcher App).
Implicit Types (h : VersionedEventHandler App).
Implicit Types (hs : list (VersionedEventHandler App)).
Implicit Types (rs : list (registration App)).

Lemma succeeds_app event hs1 hs2 (st st' : App) :
  succeeds event (hs1 ++ hs2) st st' <->
  exists st1, succeeds event hs1 st st1 /\ succeeds event hs2 st1 st'.
Proof.
  revert st. induction hs1 as [|h hs1 IH]; intros st; simpl.
  - split.
    + intros H. exists st. split; [constructor | exact H].
    + intros (st1 & H1 & H2). inversion H1; subst. exact H2.
  - split.
    + intros H. inversion H as [|? ? ? st0 ? Hh Hrest]; subst.
      apply IH in Hrest as (st1 & H1 & H2).
      exists st1. split; [econstructor; eauto | exact H2].
    + intros (st1 & H1 & H2).
      inversion H1 as [|? ? ? st0 ? Hh Hrest]; subst.
      econstructor; [exact Hh |]. apply IH. eauto.
Qed.

Lemma range_handlers_succeeds mk i hs event (st st' : App) calls :
  succeeds event hs st st' ->
  range_handlers mk i hs event st calls
  = (calls ++ map mk (seq i (length hs)), st', None).
Proof.
  intros H. revert i calls.
  induction H as [st|h hs st st1 st2 Hh _ IH]; intros i calls; simpl.
  - by rewrite app_nil_r.
  - rewrite Hh, IH. by rewrite <- app_assoc.
Qed.

Lemma range_handlers_fails mk i pre h post event (st st1 st2 : App) err calls :
  succeeds event pre st st1 ->
  h event st1 = (st2, Some err) ->
  range_handlers mk i (pre ++ h :: post) event st calls
  = (calls ++ map mk (seq i (S (length pre))), st2, Some err).
Proof.
  intros H Hh. revert i calls.
  induction H as [st|h0 hs st sta stb Hh0 _ IH]; intros i calls.
  - simpl. by rewrite Hh.
  - simpl app. simpl range_handlers. rewrite Hh0, (IH Hh).
    simpl. by rewrite <- app_assoc.
Qed.

Lemma registered_for_snoc t rs event h :
  registered_for t (rs ++ [RegEvent event h])
  = registered_for t rs ++ (if decide (TypeOf event = t) then [h] else []).
Proof.
  induction rs as [|r rs IH]; simpl.
  - by destruct (decide _).
  - destruct r as [event' h'|h']; [destruct (decide (TypeOf event' = t))|];
      simpl; by rewrite IH.
Qed.

Lemma registered_for_snoc_global t rs h :
  registered_for t (rs ++ [RegGlobal h]) = registered_for t rs.
Proof.
  induction rs as [|r rs IH]; simpl; [done|].
  destruct r as [event' h'|h']; [destruct (decide _)|]; simpl; by rewrite IH.
Qed.

Lemma registered_global_snoc rs r :
  registered_global (rs ++ [r])
  = registered_global rs
    ++ match r with RegGlobal h => [h] | RegEvent _ _ => [] end.
Proof.
  induction rs as [|r0 rs IH]; simpl.
  - by destruct r.
  - destruct r0; simpl; by rewrite IH.
Qed.

(** The registry after a sequence of set-up calls holds, under each type,
    the handlers registered for it in the order of the calls. *)
Lemma registry_register_all rs t :
  registry (register_all rs) !! t
  = match registered_for t rs with [] => None | hs => Some hs end.
Proof.
  unfold register_all.
  induction rs as [|r rs IH] using rev_ind; [done|].
  rewrite foldl_app. simpl.
  destruct r as [event h|h]; simpl.
  - rewrite registered_for_snoc. unfold Dispatcher.RegisterEventHandler.
    destruct (decide (TypeOf event = t)) as [->|Hne].
    + rewrite IH. destruct (registered_for t rs) as [|h0 hs0];
        cbn [registry]; by rewrite lookup_insert_eq.
    + rewrite app_nil_r.
      destruct (registry _ !! TypeOf event); cbn [registry];
        by rewrite lookup_insert_ne.
  - by rewrite registered_for_snoc_global.
Qed.

Lemma globalHandlers_register_all rs :
  globalHandlers (register_all rs) = registered_global rs.
Proof.
  unfold register_all.
  induction rs as [|r rs IH] using rev_ind; [done|].
  rewrite foldl_app, registered_global_snoc. simpl.
  destruct r as [event h|h]; simpl.
  - unfold Dispatcher.RegisterEventHandler. rewrite app_nil_r.
    by destruct (registry _ !! TypeOf event).
  - by rewrite IH.
Qed.

(** Dispatch on a dispatcher built by set-up calls, in terms of the lists
    of handlers the calls registered. *)
Lemma DispatchEvent_register_all rs event (st : App) :
  DispatchEvent (register_all rs) event st
  = let '(calls, st1, err) :=
      range_handlers TypeSpecific 0
        (registered_for (TypeOf (Event event)) rs) event st [] in
    match err with
    | Some e => (calls, st1, Some e)
    | None => range_handlers Global 0 (registered_global rs) event st1 calls
    end.
Proof.
  unfold DispatchEvent.
  rewrite registry_register_all, globalHandlers_register_all.
  by destruct (registered_for _ rs).
Qed.

(** C1. When a type-specific handler registered for the payload's type
    returns an error, [DispatchEvent] returns that error at once: the
    handlers invoked are exactly the type-specific ones up to and including
    the failing one, so no later type-specific handler and no global
    handler is invoked, and the state is the one the failing handler left. *)
Theorem dispatch_stops_at_type_handler_error m event handlers pre h post
    (st st1 st2 : App) err :
  registry m !! TypeOf (Event event) = Some handlers ->
  handlers = pre ++ h :: post ->
  succeeds event pre st st1 ->
  h event st1 = (st2, Some err) ->
  let calls := map TypeSpecific (seq 0 (S (length pre))) in
  DispatchEvent m event st = (calls, st2, Some err)
  /\ (forall i, Global i ∉ calls)
  /\ (forall i, TypeSpecific i ∈ calls -> i <= length pre).
Proof.
  intros Hreg -> Hpre Hh calls. split; [|split].
  - unfold DispatchEvent. rewrite Hreg.
    by rewrite (range_handlers_fails _ _ _ _ _ _ _ _ _ _ _ Hpre Hh).
  - intros i Hin. apply list_elem_of_fmap in Hin as (j & Hj & _). discriminate.
  - intros i Hin. apply list_elem_of_fmap in Hin as (j & [= ->] & Hj).
    apply elem_of_seq in Hj. lia.
Qed.

(** C4. On a dispatcher set up by a sequence of registrations: when no
    handler errors, the handlers registered for the payload's type run in
    registration order, then the global handlers in registration order, and
    nil is returned; with no handler registered for the type only the
    global handlers run; the first global handler to error ends the
    dispatch and its error is returned. *)
Theorem dispatch_runs_handlers_in_registration_order rs event (st : App) :
  let m := register_all rs in
  let hs := registered_for (TypeOf (Event event)) rs in
  let gs := registered_global rs in
  (forall st', succeeds event (hs ++ gs) st st' ->
     DispatchEvent m event st
     = (map TypeSpecific (seq 0 (length hs)) ++ map Global (seq 0 (length gs)),
        st', None))
  /\ (hs = [] ->
      registry m !! TypeOf (Event event) = None
      /\ DispatchEvent m event st = range_handlers Global 0 gs event st [])
  /\ (forall st1 st2 st3 pre g post err,
        succeeds event hs st st1 ->
        gs = pre ++ g :: post ->
        succeeds event pre st1 st2 ->
        g event st2 = (st3, Some err) ->
        DispatchEvent m event st
        = (map TypeSpecific (seq 0 (length hs))
             ++ map Global (seq 0 (S (length pre))),
           st3, Some err)).
Proof.
  intros m hs gs. subst m. split; [|split].
  - intros st' H. apply succeeds_app in H as (st1 & H1 & H2).
    rewrite DispatchEvent_register_all. fold hs gs.
    rewrite (range_handlers_succeeds _ _ _ _ _ _ _ H1). simpl.
    by rewrite (range_handlers_succeeds _ _ _ _ _ _ _ H2).
  - intros Hnil. split.
    + rewrite registry_register_all. fold hs. by rewrite Hnil.
    + rewrite DispatchEvent_register_all. fold hs gs. by rewrite Hnil.
  - intros st1 st2 st3 pre g post err H1 Hgs H2 Hg.
    rewrite DispatchEvent_register_all. fold hs gs.
    rewrite (range_handlers_succeeds _ _ _ _ _ _ _ H1). simpl.
    rewrite Hgs.
    by rewrite (range_handlers_fails _ _ _ _ _ _ _ _ _ _ _ H2 Hg).
Qed.

End DispatcherFacts.

(** ** The Listen loop on its own *)

Section ListenFacts.
Context {App : Type}.
Implicit Types (l : Listening App) (m : VersionedEventDispatchManager App).

Lemma on_event_frame event l :
  l_manager (on_event event l) = l_manager l
  /\ l_stop (on_event event l) = l_stop l
  /\ l_options (on_event event l) = l_options l
  /\ l_pc (on_event event l) = LAck (ProcessedSuccessfully event).
Proof.
  unfold on_event. simpl.
  destruct (DispatchEvent _ _ _) as [[calls app'] [e|]]; done.
Qed.

Lemma listen_step_frame a n l n' l' :
  listen_step a (n, l) = Some (n', l') ->
  l_manager l' = l_manager l /\ l_stop l' = l_stop l
  /\ l_options l' = l_options l /\ n <= n'.
Proof.
  destruct a as [c v|]; simpl; unfold listen_recv, listen_send;
    destruct (l_pc l); try discriminate;
    repeat case_decide; try discriminate;
    try (destruct v; try discriminate);
    intros [= <- <-]; simpl; try (split_and!; (done || lia)).
  destruct (on_event_frame a l) as (? & ? & ? & _). split_and!; (done || lia).
Qed.

Lemma listen_run_snoc acts a (st : chan * Listening App) :
  listen_run (acts ++ [a]) st
  = match listen_run acts st with
    | Some st' => listen_step a st'
    | None => None
    end.
Proof.
  revert st. induction acts as [|a0 acts IH]; intros st; simpl.
  - by destruct (listen_step a st).
  - destruct (listen_step a0 st); [apply IH | done].
Qed.

Lemma listen_run_frame acts n l n' l' :
  listen_run acts (n, l) = Some (n', l') ->
  l_manager l' = l_manager l /\ l_stop l' = l_stop l
  /\ l_options l' = l_options l /\ n <= n'.
Proof.
  revert n l. induction acts as [|a acts IH]; intros n l; simpl.
  - intros [= <- <-]. split_and!; (done || lia).
  - destruct (listen_step a (n, l)) as [[n1 l1]|] eqn:Hstep; [|done].
    intros Hrun. apply IH in Hrun as (-> & -> & -> & ?).
    apply listen_step_frame in Hstep as (-> & -> & -> & ?).
    split_and!; (done || lia).
Qed.

(** Once [Listen] has returned it takes part in nothing. *)
Lemma listen_returned_is_final a n l err :
  l_pc l = LReturned err -> listen_step a (n, l) = None.
Proof.
  intros Hpc. destruct a; simpl; unfold listen_recv, listen_send;
    by rewrite Hpc.
Qed.

(** How an execution of [Listen] that started at its select statement got
    to the program points of the stop branch and to its end. *)
Lemma listen_run_shape acts n0 l0 n l :
  l_pc l0 = LSelect ->
  listen_run acts (n0, l0) = Some (n, l) ->
  (forall cs, l_pc l = LCloseSend cs ->
     exists acts' b, acts = acts' ++ [Recv (l_stop l0) (VBool b)])
  /\ (forall cs, l_pc l = LCloseWait cs ->
        exists acts' b, acts = acts' ++ [Recv (l_stop l0) (VBool b); Sent])
  /\ (forall err, l_pc l = LReturned err ->
        (exists acts' b cs,
            acts = acts' ++ [Recv (l_stop l0) (VBool b); Sent;
                             Recv cs (VError err)])
        \/ (exists acts',
               acts = acts' ++ [Recv (Error (l_options l0)) (VError err)])).
Proof.
  intros Hpc0. revert n l.
  induction acts as [|a acts IH] using rev_ind; intros n l.
  - simpl. intros [= <- <-]. rewrite Hpc0. split_and!; intros; discriminate.
  - rewrite listen_run_snoc.
    destruct (listen_run acts (n0, l0)) as [[n1 l1]|] eqn:Hrun; [|done].
    destruct (listen_run_frame _ _ _ _ _ Hrun) as (_ & Hstop & Hopts & _).
    destruct (IH _ _ eq_refl) as (IHsend & IHwait & _).
    intros Hstep. destruct a as [c v|]; simpl in Hstep.
    + unfold listen_recv in Hstep.
      destruct (l_pc l1) as [|ack|cs|cs|e] eqn:Hpc1; try discriminate.
      * destruct (decide (c = ReceiveEvent (l_options l1))).
        { destruct v; try discriminate. injection Hstep as <- <-.
          destruct (on_event_frame a l1) as (_ & _ & _ & ->).
          split_and!; intros; discriminate. }
        destruct (decide (c = l_stop l1)) as [->|].
        { destruct v; try discriminate. injection Hstep as <- <-. simpl.
          rewrite Hstop.
          split_and!; intros; try discriminate. eauto. }
        destruct (decide (c = Error (l_options l1))) as [->|]; [|done].
        destruct v; try discriminate. injection Hstep as <- <-. simpl.
        rewrite Hopts.
        split_and!; intros; try discriminate.
        match goal with H : LReturned _ = LReturned _ |- _ =>
          injection H as -> end.
        right. eauto.
      * destruct (decide (c = cs)) as [->|]; [|done].
        destruct v; try discriminate. injection Hstep as <- <-. simpl.
        destruct (IHwait _ eq_refl) as (acts' & b & ->).
        split_and!; intros; try discriminate.
        match goal with H : LReturned _ = LReturned _ |- _ =>
          injection H as -> end.
        left. exists acts', b, cs. by rewrite <- app_assoc.
    + unfold listen_send in Hstep.
      destruct (l_pc l1) as [|ack|cs|cs|e] eqn:Hpc1; try discriminate;
        injection Hstep as <- <-; simpl.
      * split_and!; intros; discriminate.
      * destruct (IHsend _ eq_refl) as (acts' & b & ->).
        split_and!; intros; try discriminate.
        exists acts', b. by rewrite <- app_assoc.
Qed.

(** C5. A received event whose dispatch fails: [Listen] logs the error,
    has dispatched the event once, and is at the send of [true] on the
    item's [ProcessedSuccessfully] channel, taking nothing else before;
    once the acknowledgment is taken it is back at its select. *)
Theorem listen_acknowledges_failed_dispatch next l event calls app' err :
  l_pc l = LSelect ->
  DispatchEvent (versionedEventDispatcher (l_manager l))
    (AcceptedEvent event) (l_app l) = (calls, app', Some err) ->
  exists l1 l2,
    listen_recv next l (ReceiveEvent (l_options l)) (VAccept event)
    = Some (next, l1)
    /\ l_pc l1 = LAck (ProcessedSuccessfully event)
    /\ l_log l1
       = l_log l ++ [LogDispatchEvent (AcceptedEvent event);
                     LogErrorDispatching err]
    /\ l_app l1 = app'
    /\ l_calls l1 = l_calls l ++ map (pair (AcceptedEvent event)) calls
    /\ (forall n c v, listen_recv n l1 c v = None)
    /\ listen_send l1 = Some (ProcessedSuccessfully event, VBool true, l2)
    /\ l_pc l2 = LSelect
    /\ l_app l2 = app'
    /\ l_calls l2 = l_calls l1
    /\ l_log l2 = l_log l1 ++ [LogDispatchSuccessful].
Proof.
  intros Hpc Hdispatch.
  eexists (on_event event l), _.
  assert (Hon : on_event event l
    = println (LogErrorDispatching err)
        {| l_pc := LAck (ProcessedSuccessfully event);
           l_manager := l_manager l; l_stop := l_stop l;
           l_options := l_options l; l_app := app';
           l_log := l_log l ++ [LogDispatchEvent (AcceptedEvent event)];
           l_calls := l_calls l ++ map (pair (AcceptedEvent event)) calls |}).
  { unfold on_event. simpl. by rewrite Hdispatch. }
  split_and!.
  - unfold listen_recv. rewrite Hpc. by rewrite decide_True.
  - by rewrite Hon.
  - rewrite Hon. simpl. by rewrite <- app_assoc.
  - by rewrite Hon.
  - by rewrite Hon.
  - intros n c v. unfold listen_recv. by rewrite Hon.
  - unfold listen_send. rewrite Hon. simpl. reflexivity.
  - done.
  - done.
  - simpl. by rewrite Hon.
  - simpl. by rewrite Hon.
Qed.

(** C6. Whatever arrives on the error channel while [Listen] waits at its
    select is returned as it is: [Listen] ends there, with no dispatch and
    no further channel operation. *)
Theorem listen_returns_transport_error next m (app : App) stop exclusive
    started acts n l err :
  stop < next ->
  listen_run acts (Listen next m app stop exclusive started) = Some (n, l) ->
  l_pc l = LSelect ->
  exists l',
    listen_step (Recv (Error (l_options l)) (VError err)) (n, l)
    = Some (n, l')
    /\ l_pc l' = LReturned err
    /\ l_app l' = l_app l
    /\ l_calls l' = l_calls l
    /\ l_log l' = l_log l ++ [LogErrorReceived err]
    /\ (forall a, listen_step a (n, l') = None).
Proof.
  intros Hstop Hrun Hpc. unfold Listen in Hrun. simpl in Hrun.
  apply listen_run_frame in Hrun as (_ & Hs & Ho & _). simpl in Hs, Ho.
  eexists. split_and!.
  - simpl. unfold listen_recv. rewrite Hpc, Ho, Hs. simpl.
    rewrite decide_False by lia. rewrite decide_False by lia.
    rewrite decide_True by done. reflexivity.
  - done.
  - done.
  - done.
  - done.
  - intros a. by apply listen_returned_is_final with err.
Qed.

(** C10. [ReceiveEvents] of the in-memory bus returns nil whatever the
    options, so [Listen] on that bus enters its loop, and an execution in
    which it returns ends either with the stop branch (stop taken, close
    request sent, reply received) or with a receive on the error channel. *)
Theorem listen_on_memory_bus_returns_by_stop_or_error :
  (forall bus options, (ReceiveEvents bus options).2 = None)
  /\ forall next m (app : App) stop exclusive bus,
      let st0 :=
        Listen next m app stop exclusive
          (fun options => (ReceiveEvents bus options).2) in
      l_pc st0.2 = LSelect
      /\ forall acts n l err,
          listen_run acts st0 = Some (n, l) ->
          l_pc l = LReturned err ->
          (exists acts' b cs,
              acts = acts' ++ [Recv stop (VBool b); Sent;
                               Recv cs (VError err)])
          \/ (exists acts',
                 acts = acts' ++ [Recv (Error (l_options st0.2))
                                    (VError err)]).
Proof.
  split; [done|]. intros next m app stop exclusive bus st0. split; [done|].
  intros acts n l err Hrun Hpc.
  destruct st0 as [n0 l0] eqn:Hst0.
  assert (l_pc l0 = LSelect /\ l_stop l0 = stop) as [Hpc0 Hs0].
  { unfold st0, Listen in Hst0. simpl in Hst0. by injection Hst0 as <- <-. }
  destruct (listen_run_shape _ _ _ _ _ Hpc0 Hrun) as (_ & _ & H).
  rewrite Hs0 in H. by apply H.
Qed.

End ListenFacts.

(** ** The goroutines together *)

Section SystemFacts.
Context {App : Type}.
Implicit Types (s : system App).

Lemma run_app ls1 ls2 s :
  run (ls1 ++ ls2) s
  = match run ls1 s with Some s' => run ls2 s' | None => None end.
Proof.
  revert s. induction ls1 as [|a0 ls1 IH]; intros s; simpl; [done|].
  destruct (step a0 s); [apply IH | done].
Qed.

Lemma track_app ph hs1 hs2 :
  track ph (hs1 ++ hs2)
  = match track ph hs1 with Some ph' => track ph' hs2 | None => None end.
Proof.
  revert ph. induction hs1 as [|h hs1 IH]; intros ph; simpl; [done|].
  destruct (advance ph h); [apply IH | done].
Qed.

Lemma handshakes_app t1 t2 :
  handshakes (t1 ++ t2) = handshakes t1 ++ handshakes t2.
Proof. apply omap_app. Qed.

Lemma call_track_app st t1 t2 :
  call_track st (t1 ++ t2)
  = match call_track st t1 with
    | Some st' => call_track st' t2
    | None => None
    end.
Proof.
  revert st. induction t1 as [|o t1 IH]; intros st; simpl; [done|].
  destruct (call_advance st o); [apply IH | done].
Qed.

Lemma chans_bound_mono (n n' : chan) (t : list obs) :
  n <= n' ->
  Forall (fun o => Forall (fun c => c < n) (chans_of o)) t ->
  Forall (fun o => Forall (fun c => c < n') (chans_of o)) t.
Proof.
  intros Hle H. eapply Forall_impl; [exact H|]. intros o Ho. simpl in Ho.
  eapply Forall_impl; [exact Ho|]. intros c Hc. simpl in Hc. lia.
Qed.

Lemma invariant_init m (app : App) exclusive script :
  invariant (init m app exclusive script).
Proof. by split. Qed.


Ltac thread_field :=
  unfold coupled, loop_at, at_pc, println; simpl;
  rewrite ?(proj1 (proj2 (on_event_frame _ _))),
          ?(proj1 (proj2 (proj2 (on_event_frame _ _)))),
          ?(proj2 (proj2 (proj2 (on_event_frame _ _))));
  simpl; try done; try lia.

Ltac inv_fields Hph Hcalls Hch :=
  split; simpl;
  [ done
  | done
  | unfold threads_ok; simpl;
    first [ done
          | match goal with
            | |- ex (fun g => Some ?x = Some g /\ _) => exists x
            end; split_and!; thread_field ]
  | unfold loop_pc_of; simpl;
    rewrite handshakes_app, track_app, Hph; simpl;
    rewrite ?decide_True by done; try done
  | rewrite ?call_track_app, ?Hcalls; simpl;
    rewrite ?decide_True by done; try done
  | rewrite ?Forall_app; repeat split;
    [ revert Hch; apply chans_bound_mono; lia
    | repeat constructor; simpl; lia .. ] ].

Lemma invariant_step a s s' :
  invariant s -> step a s = Some s' -> invariant s'.
Proof.
  intros [Hbus Hstop Hthr Hph Hcalls Hch] Hstep.
  destruct s as [next [pubc started] loop listener stop caller [call script] t].
  unfold threads_ok, loop_pc_of in *. simpl in *. subst pubc stop.
  destruct listener as [m app excl|[lpc lm lstop [treg cc ce cr cx] lapp llog lcalls]];
    simpl in *.
  - destruct Hthr as (-> & -> & ->).
    destruct a as [| | |p q]; simpl in Hstep.
    + injection Hstep as <-. inv_fields Hph Hcalls Hch.
    + destruct call as [[evs|err]|], script as [|events script];
        try discriminate; injection Hstep as <-;
        inv_fields Hph Hcalls Hch.
    + destruct call as [[[|e evs]|err]|]; try discriminate.
      simpl in Hstep. injection Hstep as <-. inv_fields Hph Hcalls Hch.
    + destruct p, q; try discriminate; simpl in Hstep;
        destruct call as [[[|e evs]|err]|]; try discriminate;
        destruct caller; try discriminate.
  - destruct Hthr as ([gopts gpub gpc] & -> & -> & Ho & Hp & Hc & He & Hr & Hs & Hn & Hcoup).
    simpl in *. subst.
    destruct a as [| | |p q]; simpl in Hstep.
    + discriminate.
    + destruct call as [[evs|err]|], script as [|events script];
        try discriminate; injection Hstep as <-;
        inv_fields Hph Hcalls Hch.
    + destruct call as [[[|e evs]|err]|]; try discriminate.
      injection Hstep as <-. inv_fields Hph Hcalls Hch.
    + destruct p, q; try discriminate; simpl in Hstep;
        unfold listen_send, listen_recv, loop_send, loop_recv in Hstep;
        simpl in Hstep.
      all: destruct lpc as [|ack|cs|cs|[e|]], gpc as [|ch|e' ackc|ackc];
        simpl in Hcoup; try (exfalso; exact Hcoup); simpl in Hstep;
        try discriminate.
      all: try (destruct call as [[[|e evs]|err]|]; simpl in Hstep;
                try discriminate).
      all: try (destruct caller; simpl in Hstep; try discriminate).
      all: repeat (case_decide; try lia; try discriminate).
      all: try (injection Hstep as <-).
      all: try (inv_fields Hph Hcalls Hch).
Qed.

Lemma invariant_run ls s s' :
  invariant s -> run ls s = Some s' -> invariant s'.
Proof.
  revert s. induction ls as [|a ls IH]; intros s Hinv; simpl.
  - by intros [= <-].
  - destruct (step a s) as [s1|] eqn:Hstep; [|done].
    apply IH. by apply invariant_step with a s.
Qed.

Lemma invariant_reachable m (app : App) exclusive script s :
  reachable_from (init m app exclusive script) s -> invariant s.
Proof.
  intros [ls Hrun]. eapply invariant_run; [apply invariant_init | exact Hrun].
Qed.

(** *** What the hand-over automaton allows *)

Lemma track_split ph hs1 hs2 ph' :
  track ph (hs1 ++ hs2) = Some ph' ->
  exists ph1, track ph hs1 = Some ph1 /\ track ph1 hs2 = Some ph'.
Proof.
  rewrite track_app. destruct (track ph hs1) as [ph1|]; [eauto | done].
Qed.





(** What has been handed to the loop is what the loop has handed on, plus
    the event it holds. *)
Lemma track_published ph hs ph' :
  track ph hs = Some ph' ->
  held ph ++ omap published_of hs = omap delivered_of hs ++ held ph'.
Proof.
  revert ph. induction hs as [|h hs IH]; intros ph; simpl.
  - intros [= <-]. by rewrite app_nil_r.
  - destruct (advance ph h) as [ph1|] eqn:Hadv; [|done].
    intros Hrest. apply IH in Hrest.
    destruct h as [e|e a|c], ph as [|e'|a']; simpl in Hadv;
      try discriminate; repeat case_decide; simplify_eq; simpl in *;
      first [ done | f_equal; exact Hrest ].
Qed.

Lemma handshake_of_del_inv o e ack :
  handshake_of o = Some (Del e ack) ->
  exists c, o = OComm Loop Listener c (VAccept (mkAccept e ack)).
Proof.
  destruct o as [p q c v| | |]; try discriminate.
  destruct p, q, v as [| | | |[e' a']]; simpl; try discriminate.
  intros [= <- <-]. eauto.
Qed.





(** *** The calls of the client *)


Lemma call_advance_active st o st' :
  call_advance st o = Some st' ->
  (st.1 = true \/ o = OListen) -> st'.1 = true.
Proof.
  destruct st as [act pend]. destruct o as [p q c v| |events|err]; simpl.
  - destruct p, q, v; try (intros [= <-]; intros [?|?]; done);
      destruct pend as [[|e' rest]|]; try discriminate;
      case_decide; try discriminate; intros [= <-]; intros [?|?]; done.
  - by intros [= <-].
  - destruct pend; [done|]. intros [= <-]. intros [?|?]; done.
  - destruct pend as [[|]|]; try discriminate.
    intros [= <-]. intros [?|?]; done.
Qed.

Lemma call_track_active st t st' :
  call_track st t = Some st' ->
  (st.1 = true \/ OListen ∈ t) -> st'.1 = true.
Proof.
  revert st. induction t as [|o t IH]; intros st; simpl.
  - intros [= <-] [?|Hin]; [done|]. by apply elem_of_nil in Hin.
  - destruct (call_advance st o) as [st1|] eqn:Hadv; [|done].
    intros Hrest Hor. apply IH in Hrest; [done|].
    destruct Hor as [Hact|Hin].
    + left. eapply call_advance_active; eauto.
    + apply elem_of_cons in Hin as [<-|Hin]; [|by right].
      left. eapply call_advance_active; eauto.
Qed.

Lemma published_cons o t :
  published (o :: t)
  = match handshake_of o with
    | Some (Pub e) => e :: published t
    | _ => published t
    end.
Proof.
  unfold published, handshakes. simpl.
  by destruct (handshake_of o) as [[e|e a|c]|].
Qed.



(** *** Stopping *)

Ltac step_cases Hstep :=
  simpl in Hstep;
  unfold listen_send, listen_recv, loop_send, loop_recv in Hstep;
  simpl in Hstep;
  repeat match type of Hstep with
         | context [decide ?P] => destruct (decide P); try lia; simpl in Hstep
         end;
  try discriminate.

(** A client that has returned from its last call takes no further part,
    and no hand-over happens. *)
Lemma quiet_step a s s' :
  invariant s -> step a s = Some s' ->
  c_call (s_client s) = Some (PReturned None) ->
  c_script (s_client s) = [] ->
  handshakes (s_trace s) = [] ->
  s_client s' = s_client s /\ handshakes (s_trace s') = []
  /\ exists os, s_trace s' = s_trace s ++ os.
Proof.
  intros [Hbus Hstop Hthr Hph Hcalls Hch] Hstep Hcall Hscript Hquiet.
  destruct s as [next [pubc started] loop listener stop caller [call script] t].
  unfold threads_ok, loop_pc_of in *. simpl in *. subst pubc stop call script.
  rewrite Hquiet in Hph. simpl in Hph.
  destruct listener as [m app excl|[lpc lm lstop [treg cc ce cr cx] lapp llog lcalls]];
    simpl in *.
  - destruct Hthr as (-> & -> & ->).
    destruct a as [| | |p q]; simpl in Hstep; try discriminate.
    + injection Hstep as <-. simpl. rewrite handshakes_app, Hquiet. eauto.
    + destruct p, q; try discriminate; simpl in Hstep;
        destruct caller; discriminate.
  - destruct Hthr as ([gopts gpub gpc] & -> & -> & Ho & Hp & Hc & He & Hr & Hs & Hn & Hcoup).
    simpl in *. subst.
    destruct a as [| | |p q]; simpl in Hstep; try discriminate.
    destruct p, q; try discriminate;
      destruct lpc as [|ack|cs|cs|[e|]], gpc as [|ch|e' ackc|ackc];
      simpl in Hcoup; try (exfalso; exact Hcoup); try discriminate;
      try (destruct caller); step_cases Hstep;
      injection Hstep as <-; simpl; rewrite handshakes_app, Hquiet; eauto.
Qed.

Lemma quiet_run ls s s' :
  invariant s -> run ls s = Some s' ->
  c_call (s_client s) = Some (PReturned None) ->
  c_script (s_client s) = [] ->
  handshakes (s_trace s) = [] ->
  s_client s' = s_client s /\ handshakes (s_trace s') = []
  /\ exists os, s_trace s' = s_trace s ++ os.
Proof.
  revert s. induction ls as [|a ls IH]; intros s Hinv; simpl.
  - intros [= <-] _ _ Hq. split_and!; [done..|]. exists []. by rewrite app_nil_r.
  - destruct (step a s) as [s1|] eqn:Hstep; [|done].
    intros Hrun Hcall Hscript Hq.
    destruct (quiet_step _ _ _ Hinv Hstep Hcall Hscript Hq) as (Hc1 & Hq1 & os1 & Ht1).
    apply IH in Hrun as (Hc2 & Hq2 & os2 & Ht2);
      [| by eapply invariant_step | by rewrite Hc1 .. | done].
    split_and!; [congruence | done |].
    exists (os1 ++ os2). by rewrite Ht2, Ht1, app_assoc.
Qed.

(** While the loop is blocked handing an event to [Listen] and [Listen] is
    blocked sending its close request, neither ever moves again. *)
Lemma close_request_blocked_step a s s' cs e ack :
  invariant s -> step a s = Some s' ->
  listener_pc s = Some (LCloseSend cs) ->
  loop_pc_of s = Some (BDeliver e ack) ->
  listener_pc s' = Some (LCloseSend cs)
  /\ loop_pc_of s' = Some (BDeliver e ack).
Proof.
  intros [Hbus Hstop Hthr Hph Hcalls Hch] Hstep Hl Hg.
  destruct s as [next [pubc started] loop listener stop caller [call script] t].
  unfold threads_ok, loop_pc_of, listener_pc in *. simpl in *. subst pubc stop.
  destruct listener as [m app excl|[lpc lm lstop [treg cc ce cr cx] lapp llog lcalls]];
    simpl in *; [discriminate|].
  destruct Hthr as ([gopts gpub gpc] & -> & -> & Ho & Hp & Hc & He & Hr & Hs & Hn & Hcoup).
  simpl in *. simplify_eq. simpl in Hcoup.
  destruct a as [| | |p q]; simpl in Hstep; try discriminate.
  - destruct call as [[evs|err]|], script as [|events script];
      try discriminate; by injection Hstep as <-.
  - destruct call as [[[|e0 evs]|err]|]; try discriminate.
    by injection Hstep as <-.
  - destruct p, q; try discriminate;
      try (destruct call as [[[|e0 evs]|err]|]); try (destruct caller);
      step_cases Hstep.
Qed.

Lemma invariant_listener_started s l :
  invariant s -> s_listener s = Started l ->
  exists g, s_loop s = Some g /\ b_options g = l_options l
    /\ b_published g = 0 /\ Close (l_options l) = 2
    /\ Error (l_options l) = 3 /\ ReceiveEvent (l_options l) = 4
    /\ l_stop l = 1 /\ s_stop s = 1 /\ 5 <= s_next s
    /\ coupled (s_next s) (l_pc l) (b_pc g).
Proof.
  intros [Hbus Hstop Hthr _ _ _] Hl. unfold threads_ok in Hthr.
  rewrite Hl in Hthr. destruct Hthr as (g & ? & ? & ? & ? & ? & ? & ? & ? & ? & ?).
  exists g. split_and!; done.
Qed.

(** The stop case of [Listen], step by step. When the stop case of a
    running [Listen] fires, [Listen] makes a channel no one has used and is
    then at the send of that channel on the receiver's [Close] channel; if
    the receive loop, waiting at its select, takes the request, it replies
    nil on that channel and [Listen] returns; [Listen] returns whatever
    value arrives on that channel, and on the in-memory bus it never
    returns anything but nil. The loop need not take the request: see the
    executions of the sample system below. *)
Theorem listen_stop_closes_and_returns_nil m (app : App) exclusive script s :
  reachable_from (init m app exclusive script) s ->
  (listener_pc s = Some LSelect -> s_caller s = true ->
     exists s1 l1,
       step (Sync Caller Listener) s = Some s1
       /\ s_listener s1 = Started l1
       /\ l_pc l1 = LCloseSend (s_next s)
       /\ fresh_for (s_next s) (s_trace s)
       /\ listen_send l1
          = Some (Close (l_options l1), VChanError (s_next s),
                  at_pc (LCloseWait (s_next s)) l1))
  /\ (forall l cs,
        s_listener s = Started l -> l_pc l = LCloseSend cs ->
        loop_pc_of s = Some BSelect ->
        exists s2,
          run [Sync Listener Loop; Sync Loop Listener] s = Some s2
          /\ listener_pc s2 = Some (LReturned None)
          /\ s_trace s2
             = s_trace s
               ++ [OComm Listener Loop (Close (l_options l)) (VChanError cs);
                   OComm Loop Listener cs (VError None)])
  /\ (forall l cs next v,
        s_listener s = Started l -> l_pc l = LCloseWait cs ->
        exists l',
          listen_recv next l cs (VError v) = Some (next, l')
          /\ l_pc l' = LReturned v)
  /\ (forall err, listener_pc s = Some (LReturned err) -> err = None).
Proof.
  intros Hreach. apply invariant_reachable in Hreach as Hinv.
  split_and!.
  - intros Hpc Hcaller. unfold listener_pc in Hpc.
    destruct (s_listener s) as [|l] eqn:Hl; [done|]. injection Hpc as Hpc.
    destruct (invariant_listener_started _ _ Hinv Hl)
      as (g & Hg & Ho & Hp & Hc & He & Hr & Hs & Hstop & Hn & Hcoup).
    eexists _, _. split_and!.
    + unfold step. rewrite decide_False by done.
      unfold offer. rewrite Hcaller. unfold accept. simpl. rewrite Hl.
      unfold listen_recv. rewrite Hpc, Hr, Hs, Hstop. simpl. reflexivity.
    + done.
    + done.
    + unfold fresh_for. pose proof (inv_chans _ Hinv) as Hch.
      eapply Forall_impl; [exact Hch|]. intros o Ho' Hin. simpl in Ho'.
      rewrite Forall_forall in Ho'. apply Ho' in Hin. lia.
    + done.
  - intros l cs Hl Hpc Hloop.
    destruct (invariant_listener_started _ _ Hinv Hl)
      as (g & Hg & Ho & Hp & Hc & He & Hr & Hs & Hstop & Hn & Hcoup).
    unfold loop_pc_of in Hloop. rewrite Hg in Hloop. injection Hloop as Hgpc.
    rewrite Hpc, Hgpc in Hcoup. simpl in Hcoup.
    destruct s as [next bus loop listener stop caller client t].
    destruct l as [lpc lm lstop [treg cc ce cr cx] lapp llog lcalls].
    destruct g as [gopts gpub gpc]. simpl in *. subst.
    eexists. split_and!.
    + do 3 (unfold offer, accept, listen_recv, listen_send, loop_recv,
              loop_send, at_pc, loop_at; simpl;
            rewrite ?decide_True by done).
      reflexivity.
    + reflexivity.
    + simpl. by rewrite <- app_assoc.
  - intros l cs next v Hl Hpc. eexists. split.
    + unfold listen_recv. rewrite Hpc. rewrite decide_True by done. done.
    + done.
  - intros err Hpc. unfold listener_pc in Hpc.
    destruct (s_listener s) as [|l] eqn:Hl; [done|]. injection Hpc as Hpc.
    destruct (invariant_listener_started _ _ Hinv Hl)
      as (g & _ & _ & _ & _ & _ & _ & _ & _ & _ & Hcoup).
    rewrite Hpc in Hcoup. by destruct err, (b_pc g).
Qed.

Lemma close_request_blocked_run ls s s' cs e ack :
  invariant s -> run ls s = Some s' ->
  listener_pc s = Some (LCloseSend cs) ->
  loop_pc_of s = Some (BDeliver e ack) ->
  listener_pc s' = Some (LCloseSend cs)
  /\ loop_pc_of s' = Some (BDeliver e ack).
Proof.
  revert s. induction ls as [|a ls IH]; intros s Hinv; simpl.
  - by intros [= <-].
  - destruct (step a s) as [s1|] eqn:Hstep; [|done].
    intros Hrun Hl Hg.
    destruct (close_request_blocked_step _ _ _ _ _ _ Hinv Hstep Hl Hg)
      as [Hl1 Hg1].
    apply (IH s1); [by eapply invariant_step | done..].
Qed.

(** C9. [PublishEvents] on a bus on which [ReceiveEvents] has not been
    called returns nil without a channel operation; when that is the only
    call the client makes, nothing is ever handed to the receive loop or
    delivered, whatever happens afterwards, [Listen] attaching included. *)
Theorem publish_before_receive_drops_the_batch :
  (forall next events,
      PublishEvents (NewInMemoryEventBus next).2 events = PReturned None)
  /\ (forall bus events,
        startReceiving bus = false ->
        PublishEvents bus events = PReturned None
        /\ publish_send bus (PublishEvents bus events) = None)
  /\ forall m (app : App) exclusive events ls s,
      run (PublishCall :: ls) (init m app exclusive [events]) = Some s ->
      c_call (s_client s) = Some (PReturned None)
      /\ (exists t, s_trace s = OCall events :: OReturn None :: t)
      /\ published (s_trace s) = []
      /\ delivered (s_trace s) = []
      /\ phase_of (loop_pc_of s) = Idle.
Proof.
  split_and!.
  - done.
  - intros bus events Hoff. unfold PublishEvents. by rewrite Hoff.
  - intros m app exclusive events ls s Hrun.
    change (run (PublishCall :: ls) (init m app exclusive [events]))
      with (run ls
              (observe [OCall events; OReturn None]
                 (with_client (mkClient (Some (PReturned None)) [])
                    (init m app exclusive [events])))) in Hrun.
    set (s1 := observe _ _) in Hrun.
    assert (Hinv1 : invariant s1).
    { apply invariant_step with PublishCall (init m app exclusive [events]);
        [apply invariant_init | done]. }
    destruct (quiet_run _ _ _ Hinv1 Hrun eq_refl eq_refl eq_refl)
      as (Hclient & Hquiet & os & Htrace).
    pose proof (invariant_run _ _ _ Hinv1 Hrun) as Hinv.
    split_and!.
    + by rewrite Hclient.
    + exists os. by rewrite Htrace.
    + unfold published. by rewrite Hquiet.
    + unfold delivered. by rewrite Hquiet.
    + pose proof (inv_phase _ Hinv) as Hph. rewrite Hquiet in Hph.
      simpl in Hph. by injection Hph as <-.
Qed.

End SystemFacts.

(** ** Executions of the sample system *)

(** C7 on the code. After a stop signal [Listen] is to close the receiver
    and return nil. Here the stop case fires while the receive loop is
    blocked handing an event to [Listen]: [Listen] is then blocked at the
    send of its close request, the loop never takes it, and in no
    continuation does [Listen] get past that send or return. *)
Lemma stop_while_delivering_blocks :
  exists s,
    run [ListenCall; PublishCall; Sync Client Loop; Sync Caller Listener]
      (Sample.start [[Sample.event 1]]) = Some s
    /\ s_trace s
       = [OListen; OCall [Sample.event 1];
          OComm Client Loop 0 (VEvent (Sample.event 1));
          OComm Caller Listener 1 (VBool true)]
    /\ forall ls s',
        run ls s = Some s' ->
        listener_pc s' = Some (LCloseSend 6)
        /\ loop_pc_of s' = Some (BDeliver (Sample.event 1) 5).
Proof.
  eexists. split; [vm_compute; reflexivity|].
  split; [vm_compute; reflexivity|].
  intros ls s' Hrun.
  eapply close_request_blocked_run;
    [|exact Hrun|vm_compute; reflexivity|vm_compute; reflexivity].
  apply (invariant_run
           [ListenCall; PublishCall; Sync Client Loop; Sync Caller Listener]
           (Sample.start [[Sample.event 1]]));
    [apply invariant_init | vm_compute; reflexivity].
Qed.

(** The same block when the stop case fires first: [Listen] is at the send
    of its close request, the loop at its select takes a published event
    instead of the request, and from then on it offers that event to
    [Listen], which never takes it. *)
Lemma publish_taken_before_close_blocks :
  exists s,
    run [ListenCall; PublishCall; Sync Caller Listener; Sync Client Loop]
      (Sample.start [[Sample.event 1]]) = Some s
    /\ s_trace s
       = [OListen; OCall [Sample.event 1];
          OComm Caller Listener 1 (VBool true);
          OComm Client Loop 0 (VEvent (Sample.event 1))]
    /\ forall ls s',
        run ls s = Some s' ->
        listener_pc s' = Some (LCloseSend 5)
        /\ loop_pc_of s' = Some (BDeliver (Sample.event 1) 6).
Proof.
  eexists. split; [vm_compute; reflexivity|].
  split; [vm_compute; reflexivity|].
  intros ls s' Hrun.
  eapply close_request_blocked_run;
    [|exact Hrun|vm_compute; reflexivity|vm_compute; reflexivity].
  apply (invariant_run
           [ListenCall; PublishCall; Sync Caller Listener; Sync Client Loop]
           (Sample.start [[Sample.event 1]]));
    [apply invariant_init | vm_compute; reflexivity].
Qed.


(** C3 on the code: after the close reply [Listen] has returned nil and
    the receive loop is back at its select; a later [PublishEvents] hands
    its event to the loop and returns, and the loop offers the event on the
    receive channel. *)
Theorem receive_loop_survives_close :
  exists s1 s2 s3,
    run [ListenCall; Sync Caller Listener; Sync Listener Loop;
         Sync Loop Listener] (Sample.start [[Sample.event 1]]) = Some s1
    /\ listener_pc s1 = Some (LReturned None)
    /\ loop_pc_of s1 = Some BSelect
    /\ run [PublishCall; Sync Client Loop; PublishReturn] s1 = Some s2
    /\ c_call (s_client s2) = Some (PReturned None)
    /\ loop_pc_of s2 = Some (BDeliver (Sample.event 1) 6)
    /\ published (s_trace s2) = [Sample.event 1]
    /\ offer Loop s2
       = Some (4, VAccept (mkAccept (Sample.event 1) 6), s3).
Proof.
  eexists _, _, _. split_and!; vm_compute; reflexivity.
Qed.

(** ** The theorems at the sample values *)

Example dispatch_registered_type_failing :
  DispatchEvent (versionedEventDispatcher Sample.manager) (Sample.event 1) 0
  = ([TypeSpecific 0], 1, Some "boom").
Proof. vm_compute. reflexivity. Qed.

Example dispatch_unregistered_type :
  DispatchEvent (versionedEventDispatcher Sample.manager) Sample.other_event 0
  = ([Global 0], 100, None).
Proof. vm_compute. reflexivity. Qed.

Example dispatch_all_succeed :
  DispatchEvent (register_all Sample.registrations) (Sample.event 1) 0
  = ([TypeSpecific 0; Global 0], 101, None).
Proof. vm_compute. reflexivity. Qed.

Lemma dispatch_stops_at_type_handler_error_witness :
  DispatchEvent (versionedEventDispatcher Sample.manager) (Sample.event 1) 0
  = ([TypeSpecific 0], 1, Some "boom").
Proof.
  apply (dispatch_stops_at_type_handler_error
           (versionedEventDispatcher Sample.manager) (Sample.event 1)
           [Sample.fails 1 "boom"] [] (Sample.fails 1 "boom") [] 0 0 1 "boom").
  - vm_compute. reflexivity.
  - reflexivity.
  - constructor.
  - reflexivity.
Defined.

Lemma dispatch_runs_handlers_in_registration_order_witness :
  DispatchEvent (register_all Sample.registrations) (Sample.event 1) 0
  = ([TypeSpecific 0; Global 0], 101, None).
Proof.
  apply (proj1 (dispatch_runs_handlers_in_registration_order
                  Sample.registrations (Sample.event 1) 0)).
  vm_compute.
  eapply succeeds_cons; [reflexivity|].
  eapply succeeds_cons; [reflexivity|].
  apply succeeds_nil.
Defined.

Lemma listen_acknowledges_failed_dispatch_witness :
  exists l1 l2,
    listen_recv 5 Sample.listening 4 (VAccept (mkAccept (Sample.event 1) 7))
    = Some (5, l1)
    /\ l_pc l1 = LAck 7
    /\ l_log l1
       = [LogDispatchEvent (Sample.event 1); LogErrorDispatching "boom"]
    /\ listen_send l1 = Some (7, VBool true, l2)
    /\ l_pc l2 = LSelect.
Proof.
  destruct (listen_acknowledges_failed_dispatch 5 Sample.listening
              (mkAccept (Sample.event 1) 7) [TypeSpecific 0] 1 "boom")
    as (l1 & l2 & H1 & H2 & H3 & _ & _ & _ & H4 & H5 & _).
  - reflexivity.
  - vm_compute. reflexivity.
  - exists l1, l2. split_and!; assumption.
Defined.

Lemma listen_returns_transport_error_witness :
  exists l',
    listen_step (Recv 3 (VError (Some "connection lost"))) (5, Sample.listening)
    = Some (5, l')
    /\ l_pc l' = LReturned (Some "connection lost").
Proof.
  destruct (listen_returns_transport_error 2 Sample.manager 0 1 false
              (fun _ => None) [] 5 Sample.listening (Some "connection lost"))
    as (l' & H1 & H2 & _).
  - lia.
  - reflexivity.
  - reflexivity.
  - exists l'. split; assumption.
Defined.

Lemma listen_on_memory_bus_returns_by_stop_or_error_witness :
  (exists acts' b cs,
      [Recv 1 (VBool true); Sent; Recv 5 (VError None)]
      = acts' ++ [Recv 1 (VBool b); Sent; Recv cs (VError None)])
  \/ (exists acts',
         [Recv 1 (VBool true); Sent; Recv 5 (VError None)]
         = acts' ++ [Recv 3 (VError None)]).
Proof.
  destruct (listen_on_memory_bus_returns_by_stop_or_error (App := nat))
    as [_ H].
  destruct (H 2 Sample.manager 0 1 false (mkBus 0 false)) as [_ H'].
  eapply (H' [Recv 1 (VBool true); Sent; Recv 5 (VError None)]).
  - vm_compute. reflexivity.
  - reflexivity.
Defined.

Lemma listen_stop_closes_and_returns_nil_witness :
  exists s s1 l1,
    run [ListenCall] (Sample.start []) = Some s
    /\ step (Sync Caller Listener) s = Some s1
    /\ s_listener s1 = Started l1
    /\ l_pc l1 = LCloseSend (s_next s).
Proof.
  destruct (run [ListenCall] (Sample.start [])) as [s|] eqn:Hrun;
    [|vm_compute in Hrun; discriminate].
  destruct (listen_stop_closes_and_returns_nil Sample.manager 0 false [] s)
    as [H _].
  - exists [ListenCall]. exact Hrun.
  - destruct H as (s1 & l1 & H1 & H2 & H3 & _).
    + vm_compute in Hrun. injection Hrun as <-. reflexivity.
    + vm_compute in Hrun. injection Hrun as <-. reflexivity.
    + exists s, s1, l1. split_and!; [reflexivity | assumption..].
Defined.



Lemma publish_before_receive_drops_the_batch_witness :
  exists s,
    run [PublishCall; ListenCall; Sync Caller Listener]
      (Sample.start [[Sample.event 1]]) = Some s
    /\ published (s_trace s) = [] /\ delivered (s_trace s) = [].
Proof.
  destruct (run [PublishCall; ListenCall; Sync Caller Listener]
              (Sample.start [[Sample.event 1]])) as [s|] eqn:Hrun;
    [|vm_compute in Hrun; discriminate].
  destruct (publish_before_receive_drops_the_batch (App := nat))
    as (_ & _ & H).
  destruct (H Sample.manager 0 false [Sample.event 1]
              [ListenCall; Sync Caller Listener] s Hrun)
    as (_ & _ & H1 & H2 & _).
  exists s. split_and!; [reflexivity | assumption..].
Defined.

(** * Further properties *)

Import Sorting Ledger.

(** ** The dispatcher, continued *)

Section DispatcherMore.
Context {App : Type}.
Implicit Types (m : MapBasedVersionedEventDispatcher App).
Implicit Types (h : VersionedEventHandler App).
Implicit Types (hs : list (VersionedEventHandler App)).

(** What a range loop that ended without error has done. *)
Lemma range_handlers_nil_inv mk i hs event (st st' : App) calls calls' :
  range_handlers mk i hs event st calls = (calls', st', None) ->
  succeeds event hs st st' /\ calls' = calls ++ map mk (seq i (length hs)).
Proof.
  revert i st calls. induction hs as [|h hs IH]; intros i st calls; simpl.
  - intros [= <- <-]. split; [constructor | by rewrite app_nil_r].
  - destruct (h event st) as [st1 [e|]] eqn:Hh; [discriminate|].
    intros H. apply IH in H as [Hs ->]. split.
    + econstructor; eauto.
    + by rewrite <- app_assoc.
Qed.

(** What a range loop that ended with an error has done. *)
Lemma range_handlers_err_inv mk i hs event (st st' : App) calls calls' err :
  range_handlers mk i hs event st calls = (calls', st', Some err) ->
  exists pre h post st1,
    hs = pre ++ h :: post /\ succeeds event pre st st1
    /\ h event st1 = (st', Some err)
    /\ calls' = calls ++ map mk (seq i (S (length pre))).
Proof.
  revert i st calls. induction hs as [|h hs IH]; intros i st calls; simpl.
  - discriminate.
  - destruct (h event st) as [st1 [e|]] eqn:Hh.
    + intros [= <- <- <-]. exists [], h, hs, st. split_and!; try done.
      constructor.
    + intros H. apply IH in H as (pre & h' & post & st2 & -> & Hs & Hh' & ->).
      exists (h :: pre), h', post, st2. split_and!; try done.
      * econstructor; eauto.
      * simpl. by rewrite <- app_assoc.
Qed.

Lemma DispatchEvent_handlers_for m event (st : App) :
  DispatchEvent m event st
  = let '(calls, st1, err) :=
      range_handlers TypeSpecific 0
        (handlers_for m (TypeOf (Event event))) event st [] in
    match err with
    | Some e => (calls, st1, Some e)
    | None => range_handlers Global 0 (globalHandlers m) event st1 calls
    end.
Proof.
  unfold DispatchEvent, handlers_for.
  by destruct (registry m !! TypeOf (Event event)).
Qed.

Lemma take_map_seq {A} (mk : nat -> A) n k (rest : list A) :
  take n (map mk (seq 0 (n + k)) ++ rest) = map mk (seq 0 n).
Proof.
  rewrite take_app_le by (rewrite length_map, length_seq; lia).
  rewrite firstn_map, take_seq. do 2 f_equal. lia.
Qed.

Lemma take_map_seq_app {A} (mk1 mk2 : nat -> A) n1 n k :
  take (n1 + n) (map mk1 (seq 0 n1) ++ map mk2 (seq 0 (n + k)))
  = map mk1 (seq 0 n1) ++ map mk2 (seq 0 n).
Proof.
  replace (n1 + n) with (length (map mk1 (seq 0 n1)) + n)
    by (by rewrite length_map, length_seq).
  rewrite take_app_add. f_equal.
  rewrite <- (app_nil_r (map mk2 _)). apply take_map_seq.
Qed.

Lemma handlers_for_register m event h t :
  handlers_for (Dispatcher.RegisterEventHandler event h m) t
  = (if decide (TypeOf event = t) then handlers_for m t ++ [h]
     else handlers_for m t)
  /\ globalHandlers (Dispatcher.RegisterEventHandler event h m)
     = globalHandlers m.
Proof.
  unfold handlers_for, Dispatcher.RegisterEventHandler. split.
  - destruct (decide (TypeOf event = t)) as [<-|Hne].
    + destruct (registry m !! TypeOf event); cbn [registry];
        by rewrite lookup_insert_eq.
    + destruct (registry m !! TypeOf event); cbn [registry];
        by rewrite lookup_insert_ne.
  - by destruct (registry m !! TypeOf event).
Qed.

(** The two ways a dispatch ends. *)
Lemma DispatchEvent_nil_inv m event (st st' : App) calls :
  DispatchEvent m event st = (calls, st', None) ->
  succeeds event
    (handlers_for m (TypeOf (Event event)) ++ globalHandlers m) st st'
  /\ calls = all_slots m event.
Proof.
  rewrite DispatchEvent_handlers_for.
  destruct (range_handlers TypeSpecific 0 _ event st [])
    as [[calls1 st1] [e|]] eqn:H1; [discriminate|].
  intros H2.
  apply range_handlers_nil_inv in H1 as [Hs1 ->].
  apply range_handlers_nil_inv in H2 as [Hs2 ->].
  split; [apply succeeds_app; eauto | done].
Qed.

Lemma DispatchEvent_err_inv m event (st st' : App) calls err :
  DispatchEvent m event st = (calls, st', Some err) ->
  exists pre h post st1,
    handlers_for m (TypeOf (Event event)) ++ globalHandlers m
    = pre ++ h :: post
    /\ succeeds event pre st st1
    /\ h event st1 = (st', Some err)
    /\ calls = take (S (length pre)) (all_slots m event).
Proof.
  rewrite DispatchEvent_handlers_for. unfold all_slots.
  set (hs := handlers_for m (TypeOf (Event event))).
  destruct (range_handlers TypeSpecific 0 hs event st [])
    as [[calls1 st1] [e|]] eqn:H1.
  - intros [= <- <- <-].
    apply range_handlers_err_inv in H1
      as (pre & h & post & st2 & Hhs & Hs & Hh & ->).
    exists pre, h, (post ++ globalHandlers m), st2. split_and!; try done.
    + rewrite Hhs. by rewrite <- app_assoc.
    + rewrite Hhs, length_app. cbn [length app].
      replace (length pre + S (length post))
        with (S (length pre) + length post) by lia.
      by rewrite take_map_seq.
  - intros H2. apply range_handlers_nil_inv in H1 as [Hs1 ->].
    apply range_handlers_err_inv in H2
      as (pre & g & post & st2 & Hgs & Hs & Hg & ->).
    exists (hs ++ pre), g, post, st2. split_and!; try done.
    + rewrite Hgs. by rewrite <- app_assoc.
    + apply succeeds_app. eauto.
    + rewrite Hgs, !length_app. cbn [length app].
      replace (S (length hs + length pre))
        with (length hs + S (length pre)) by lia.
      replace (length pre + S (length post))
        with (S (length pre) + length post) by lia.
      by rewrite take_map_seq_app.
Qed.

(** X1. Registering a handler for a type appends it to the handlers of
    that type, as the first one when the type had none, and leaves the
    handlers of every other type and the global handlers as they were. *)
Theorem register_event_handler_appends m event h t :
  handlers_for (Dispatcher.RegisterEventHandler event h m) t
  = (if decide (TypeOf event = t) then handlers_for m t ++ [h]
     else handlers_for m t)
  /\ globalHandlers (Dispatcher.RegisterEventHandler event h m)
     = globalHandlers m.
Proof. apply handlers_for_register. Qed.

(** X2. Registering a handler for another payload type does not change the
    dispatch of an event. *)
Theorem dispatch_ignores_other_types m ev h event (st : App) :
  TypeOf ev <> TypeOf (Event event) ->
  DispatchEvent (Dispatcher.RegisterEventHandler ev h m) event st
  = DispatchEvent m event st.
Proof.
  intros Hne. rewrite !DispatchEvent_handlers_for.
  destruct (handlers_for_register m ev h (TypeOf (Event event)))
    as [-> ->].
  by rewrite decide_False.
Qed.

(** X3. [DispatchEvent] returns nil only when every handler registered for
    the payload's type and every global handler has been called, in that
    order, and has returned nil. *)
Theorem dispatch_nil_means_all_succeeded m event (st st' : App) calls :
  DispatchEvent m event st = (calls, st', None) ->
  succeeds event
    (handlers_for m (TypeOf (Event event)) ++ globalHandlers m) st st'
  /\ calls = all_slots m event.
Proof. apply DispatchEvent_nil_inv. Qed.

(** X4. An error returned by [DispatchEvent] is the error of the first
    handler that failed, in the order type-specific then global; the
    handlers before it returned nil, the ones after it were not called, and
    the state is the one the failing handler left. *)
Theorem dispatch_error_is_first_failure m event (st st' : App) calls err :
  DispatchEvent m event st = (calls, st', Some err) ->
  exists pre h post st1,
    handlers_for m (TypeOf (Event event)) ++ globalHandlers m
    = pre ++ h :: post
    /\ succeeds event pre st st1
    /\ h event st1 = (st', Some err)
    /\ calls = take (S (length pre)) (all_slots m event).
Proof. apply DispatchEvent_err_inv. Qed.

(** X5. Whatever a dispatch returns, a handler is called at most once, the
    type-specific handlers before the global ones and each list in its
    order: the invocations are an initial part of the full sequence. *)
Theorem dispatch_calls_in_order m event (st : App) :
  (DispatchEvent m event st).1.1 `prefix_of` all_slots m event
  /\ NoDup (DispatchEvent m event st).1.1.
Proof.
  assert (Hnd : NoDup (all_slots m event)).
  { unfold all_slots. apply NoDup_app. split_and!.
    - apply NoDup_fmap; [by intros ?? [=] | apply NoDup_seq].
    - intros x H1 H2. apply list_elem_of_fmap in H1 as (i & -> & _).
      apply list_elem_of_fmap in H2 as (j & [=] & _).
    - apply NoDup_fmap; [by intros ?? [=] | apply NoDup_seq]. }
  assert (Hpre : (DispatchEvent m event st).1.1 `prefix_of` all_slots m event).
  { destruct (DispatchEvent m event st) as [[calls st'] [err|]] eqn:Hd; simpl.
    - apply DispatchEvent_err_inv in Hd
        as (pre & h & post & st1 & _ & _ & _ & ->).
      apply prefix_take.
    - apply DispatchEvent_nil_inv in Hd as [_ ->]. done. }
  split; [done|].
  destruct Hpre as [k Hk]. rewrite Hk in Hnd.
  by apply NoDup_app in Hnd as [? _].
Qed.

End DispatcherMore.

(** ** Sorting by creation time *)

Section SortingFacts.
Implicit Types (c : ByCreated) (i j k : Z).

Lemma index_Some c i x :
  index c i = Some x <-> (0 ≤ i)%Z /\ c !! Z.to_nat i = Some x.
Proof.
  unfold index. destruct (decide (0 ≤ i)%Z).
  - split; [by intros ? | by intros [_ ?]].
  - split; [done | intros [? _]; lia].
Qed.

Lemma index_is_Some c i : is_Some (index c i) <-> (0 ≤ i < Len c)%Z.
Proof.
  unfold index, Len. destruct (decide (0 ≤ i)%Z).
  - rewrite lookup_lt_is_Some. lia.
  - split; [by intros [? ?] | lia].
Qed.

Lemma index_None c i : index c i = None <-> ~ (0 ≤ i < Len c)%Z.
Proof. rewrite <- index_is_Some, eq_None_not_Some. done. Qed.

(** X6. [Swap] exchanges the events at the two indices and leaves every
    other position alone: the slice keeps its length and its events, and
    swapping again gives the slice back. *)
Theorem swap_exchanges c i j c' :
  Swap c i j = Some c' ->
  Len c' = Len c
  /\ c' ≡ₚ c
  /\ index c' i = index c j
  /\ index c' j = index c i
  /\ (forall k, k <> i -> k <> j -> index c' k = index c k)
  /\ Swap c' i j = Some c.
Proof.
  unfold Swap.
  destruct (index c i) as [x|] eqn:Hi; [|done].
  destruct (index c j) as [y|] eqn:Hj; [|done].
  intros [= <-].
  apply index_Some in Hi as [Hi0 Hi]. apply index_Some in Hj as [Hj0 Hj].
  pose proof (lookup_lt_Some _ _ _ Hi) as Hil.
  pose proof (lookup_lt_Some _ _ _ Hj) as Hjl.
  assert (Hci : index (<[Z.to_nat j:=x]> (<[Z.to_nat i:=y]> c)) i = Some y).
  { apply index_Some. split; [done|].
    rewrite !list_lookup_insert, !length_insert.
    destruct (decide (Z.to_nat j = Z.to_nat i ∧ Z.to_nat j < length c))
      as [[Heq _]|Hne].
    - rewrite Heq in Hj. congruence.
    - rewrite decide_True by done. done. }
  assert (Hcj : index (<[Z.to_nat j:=x]> (<[Z.to_nat i:=y]> c)) j = Some x).
  { apply index_Some. split; [done|].
    rewrite list_lookup_insert_eq by (by rewrite length_insert). done. }
  split_and!.
  - unfold Len. by rewrite !length_insert.
  - by apply Permutation_insert_swap.
  - by rewrite Hci.
  - by rewrite Hcj.
  - intros k Hki Hkj. unfold index. destruct (decide (0 ≤ k)%Z); [|done].
    rewrite !list_lookup_insert_ne; [done|lia..].
  - rewrite Hci, Hcj. f_equal. apply list_eq. intros n.
    rewrite !list_lookup_insert, !length_insert.
    repeat case_decide; destruct_and?; subst; try done; try lia;
      try congruence.
Qed.

(** X7. [Swap] panics exactly when one of the two indices is outside the
    slice, negative indices included. *)
Theorem swap_panics_out_of_range c i j :
  Swap c i j = None <-> ~ ((0 ≤ i < Len c)%Z /\ (0 ≤ j < Len c)%Z).
Proof.
  unfold Swap. rewrite <- !index_is_Some.
  destruct (index c i), (index c j); split; try done.
  - intros H. destruct H. split; eauto.
  - intros _ [_ [? ?]]. done.
  - intros _ [[? ?] _]. done.
  - intros _ [[? ?] _]. done.
Qed.

End SortingFacts.

(** ** The goroutines together, continued *)

Section SystemMore.
Context {App : Type}.
Implicit Types (s : system App).

Lemma delivered_app t1 t2 : delivered (t1 ++ t2) = delivered t1 ++ delivered t2.
Proof. unfold delivered. by rewrite handshakes_app, omap_app. Qed.

Lemma published_app t1 t2 : published (t1 ++ t2) = published t1 ++ published t2.
Proof. unfold published. by rewrite handshakes_app, omap_app. Qed.

Lemma delivered_one o :
  delivered [o]
  = match handshake_of o with Some (Del e _) => [e] | _ => [] end.
Proof.
  unfold delivered, handshakes. simpl.
  by destruct (handshake_of o) as [[| |]|].
Qed.

Lemma logged_events_app log1 log2 :
  logged_events (log1 ++ log2) = logged_events log1 ++ logged_events log2.
Proof. apply omap_app. Qed.

Lemma dispatch_all_snoc (m : MapBasedVersionedEventDispatcher App) events e st :
  dispatch_all m (events ++ [e]) st
  = (DispatchEvent m e (dispatch_all m events st)).1.2.
Proof. unfold dispatch_all. by rewrite foldl_app. Qed.

Lemma on_event_effect (a : VersionedEventTransactedAccept) (l : Listening App) :
  l_manager (on_event a l) = l_manager l
  /\ logged_events (l_log (on_event a l))
     = logged_events (l_log l) ++ [AcceptedEvent a]
  /\ l_app (on_event a l)
     = (DispatchEvent (versionedEventDispatcher (l_manager l))
          (AcceptedEvent a) (l_app l)).1.2.
Proof.
  unfold on_event. simpl.
  destruct (DispatchEvent _ _ _) as [[calls app'] [e|]]; simpl;
    rewrite ?logged_events_app; simpl; rewrite ?app_nil_r; done.
Qed.

Lemma delivered_call events pc :
  delivered (OCall events :: returned_obs pc) = []
  /\ published (OCall events :: returned_obs pc) = [].
Proof. by destruct pc. Qed.

Lemma delivered_returned pc :
  delivered (returned_obs pc) = [] /\ published (returned_obs pc) = [].
Proof. by destruct pc. Qed.

Ltac sync_cases Hstep :=
  simpl in Hstep;
  unfold listen_send, listen_recv, loop_send, loop_recv in Hstep;
  simpl in Hstep;
  repeat match type of Hstep with
         | context [decide ?P] => destruct (decide P); try lia; simpl in Hstep
         end;
  try discriminate.

(** [Listen] has dispatched exactly the delivered events, in order. *)
Lemma dispatched_ok_step m (app : App) a s s' :
  invariant s -> dispatched_ok m app s -> step a s = Some s' ->
  dispatched_ok m app s'.
Proof.
  intros [Hbus Hstop Hthr Hph Hcalls Hch] Hok Hstep.
  destruct s as [next [pubc started] loop listener stop caller [call script] t].
  unfold threads_ok, loop_pc_of, dispatched_ok in *. simpl in *.
  subst pubc stop.
  destruct listener as [m0 app0 excl|[lpc lm lstop [treg cc ce cr cx] lapp llog lcalls]];
    simpl in *.
  - destruct Hthr as (-> & -> & ->). destruct Hok as (-> & -> & Hd).
    destruct a as [| | |p q]; simpl in Hstep.
    + injection Hstep as <-. simpl. by rewrite delivered_app, Hd.
    + destruct call as [[evs|err]|], script as [|events script];
        try discriminate; injection Hstep as <-; simpl;
        by rewrite delivered_app, Hd.
    + destruct call as [[[|e evs]|err]|]; try discriminate.
      simpl in Hstep. injection Hstep as <-. simpl.
      by rewrite delivered_app, Hd.
    + destruct p, q; try discriminate; simpl in Hstep;
        destruct call as [[[|e evs]|err]|]; try discriminate;
        destruct caller; try discriminate.
  - destruct Hthr as ([gopts gpub gpc] & -> & -> & Ho & Hp & Hc & He & Hr & Hs & Hn & Hcoup).
    simpl in *. subst gopts gpub cc ce cr lstop.
    destruct Hok as (Hm & Hlog & Happ).
    destruct a as [| | |p q]; simpl in Hstep.
    + discriminate.
    + destruct call as [[evs|err]|], script as [|events script];
        try discriminate; injection Hstep as <-; simpl;
        by rewrite delivered_app, app_nil_r.
    + destruct call as [[[|e evs]|err]|]; try discriminate.
      injection Hstep as <-. simpl. by rewrite delivered_app, app_nil_r.
    + destruct p, q; try discriminate;
        destruct lpc as [|ack|cs|cs|[e|]], gpc as [|ch|e' ackc|ackc];
        simpl in Hcoup; try (exfalso; exact Hcoup); try discriminate;
        try (destruct call as [[[|e0 evs]|err]|]); try (destruct caller);
        sync_cases Hstep; injection Hstep as <-; simpl;
        rewrite delivered_app, delivered_one; simpl;
        rewrite ?logged_events_app; simpl;
        rewrite ?app_nil_r; try done.
      all: match goal with
           | |- context [on_event ?a ?l] =>
               destruct (on_event_effect a l) as (Hm' & Hl & Ha)
           end;
        simpl in Hm', Hl, Ha;
        rewrite Hm', Hl, Ha, Hlog, dispatch_all_snoc, Happ, Hm; done.
Qed.

Lemma dispatched_ok_run m (app : App) ls s s' :
  invariant s -> dispatched_ok m app s -> run ls s = Some s' ->
  dispatched_ok m app s'.
Proof.
  revert s. induction ls as [|a ls IH]; intros s Hinv Hok; simpl.
  - by intros [= <-].
  - destruct (step a s) as [s1|] eqn:Hstep; [|done].
    apply IH; [by eapply invariant_step | by eapply dispatched_ok_step].
Qed.

(** X9. Whatever the interleaving, [Listen] has dispatched exactly the
    events the receive loop delivered to it, once each and in the order of
    delivery: it has logged those events, and the application state is the
    one the dispatches leave when made one after the other from the state
    [Listen] started with. *)
Theorem listen_dispatches_delivered_events m (app : App) exclusive script
    s l :
  reachable_from (init m app exclusive script) s ->
  s_listener s = Started l ->
  l_manager l = m
  /\ logged_events (l_log l) = delivered (s_trace s)
  /\ l_app l
     = dispatch_all (versionedEventDispatcher m) (delivered (s_trace s)) app.
Proof.
  intros [ls Hrun] Hl.
  assert (Hok : dispatched_ok m app s).
  { eapply dispatched_ok_run; [apply invariant_init| |exact Hrun]. done. }
  unfold dispatched_ok in Hok. by rewrite Hl in Hok.
Qed.


(** *** Batches, hand-overs and deliveries *)

Lemma call_track_accepted st t st' :
  call_track st t = Some st' ->
  default [] st.2 ++ accepted st.1 t = published t ++ default [] st'.2.
Proof.
  revert st. induction t as [|o t IH]; intros [act pend]; simpl.
  - intros [= <-]. simpl. by rewrite app_nil_r.
  - destruct (call_advance (act, pend) o) as [st1|] eqn:Hadv; [|done].
    intros Hrest. apply IH in Hrest. rewrite published_cons.
    destruct o as [p q c v| |evs|e]; simpl in Hadv.
    + destruct p, q, v; simpl in *;
        try (injection Hadv as <-; exact Hrest).
      destruct pend as [[|e' rest]|]; try discriminate.
      case_decide; [|done]. subst. injection Hadv as <-.
      simpl in *. by rewrite Hrest.
    + injection Hadv as <-. exact Hrest.
    + destruct pend; [done|]. injection Hadv as <-. simpl in *.
      exact Hrest.
    + destruct pend as [[|]|]; try discriminate. injection Hadv as <-.
      exact Hrest.
Qed.

Lemma call_track_inactive st t st' :
  call_track st t = Some st' ->
  st'.1 = true -> st.1 = true \/ OListen ∈ t.
Proof.
  revert st. induction t as [|o t IH]; intros [act pend]; simpl.
  - intros [= <-]. by left.
  - destruct (call_advance (act, pend) o) as [st1|] eqn:Hadv; [|done].
    intros Hrest Hact. destruct (IH _ Hrest Hact) as [H1|Hin].
    + destruct o as [p q c v| |evs|e]; simpl in Hadv.
      * left. destruct p, q, v; simpl in *;
          try (by injection Hadv as <-);
          destruct pend as [[|e' rest]|]; try discriminate;
          case_decide; try discriminate; by injection Hadv as <-.
      * right. by left.
      * left. destruct pend; [done|]. by injection Hadv as <-.
      * left. destruct pend as [[|]|]; try discriminate.
        by injection Hadv as <-.
    + right. by right.
Qed.

(** X10. The events handed to the receive loop are the events of the
    batches passed to [PublishEvents] after [ReceiveEvents] had run, in
    order, none left out before a later one and none repeated; what is
    missing is the unsent rest of the current call. The events delivered to
    [Listen] are an initial part of them. *)
Theorem events_come_from_batches_in_order m (app : App) exclusive script s :
  reachable_from (init m app exclusive script) s ->
  published (s_trace s) ++ unsent (c_call (s_client s))
  = accepted false (s_trace s)
  /\ delivered (s_trace s) `prefix_of` accepted false (s_trace s).
Proof.
  intros Hreach. apply invariant_reachable in Hreach as Hinv.
  pose proof (call_track_accepted _ _ _ (inv_calls _ Hinv)) as Hacc.
  simpl in Hacc.
  assert (Hun : default [] (pending_of (c_call (s_client s)))
                = unsent (c_call (s_client s))).
  { by destruct (c_call (s_client s)) as [[|]|]. }
  rewrite Hun in Hacc. split; [done|].
  rewrite Hacc.
  pose proof (track_published _ _ _ (inv_phase _ Hinv)) as Hpub.
  simpl in Hpub. unfold delivered, published. rewrite Hpub.
  rewrite <- app_assoc. by apply prefix_app_r.
Qed.

(** X11. The bus is active exactly from the call of [ReceiveEvents] on; the
    flag is never cleared, also not once [Listen] has returned. *)
Theorem bus_stays_active m (app : App) exclusive script s :
  reachable_from (init m app exclusive script) s ->
  (startReceiving (s_bus s) = true <-> OListen ∈ s_trace s)
  /\ (forall err, listener_pc s = Some (LReturned err) ->
        startReceiving (s_bus s) = true).
Proof.
  intros Hreach. apply invariant_reachable in Hreach as Hinv.
  pose proof (inv_calls _ Hinv) as Hcalls.
  assert (Hiff : startReceiving (s_bus s) = true <-> OListen ∈ s_trace s).
  { split.
    - intros Hact.
      destruct (call_track_inactive _ _ _ Hcalls Hact) as [?|?]; done.
    - intros Hin. apply (call_track_active _ _ _ Hcalls). by right. }
  split; [done|].
  intros err Hpc. pose proof (inv_threads _ Hinv) as Hthr.
  unfold threads_ok, listener_pc in *.
  destruct (s_listener s); [done|].
  by destruct Hthr as (g & _ & ? & _).
Qed.

(** At most one event is taken from the client and not yet delivered. *)
Lemma published_delivered_held s :
  invariant s ->
  published (s_trace s) = delivered (s_trace s) ++ held (phase_of (loop_pc_of s)).
Proof.
  intros Hinv. pose proof (track_published _ _ _ (inv_phase _ Hinv)) as H.
  exact H.
Qed.

Lemma returned_step a s s' err :
  invariant s -> step a s = Some s' ->
  listener_pc s = Some (LReturned err) ->
  listener_pc s' = Some (LReturned err)
  /\ delivered (s_trace s') = delivered (s_trace s).
Proof.
  intros [Hbus Hstop Hthr Hph Hcalls Hch] Hstep Hl.
  destruct s as [next [pubc started] loop listener stop caller [call script] t].
  unfold threads_ok, loop_pc_of, listener_pc in *. simpl in *. subst pubc stop.
  destruct listener as [m app excl|[lpc lm lstop [treg cc ce cr cx] lapp llog lcalls]];
    simpl in *; [discriminate|].
  destruct Hthr as ([gopts gpub gpc] & -> & -> & Ho & Hp & Hc & He & Hr & Hs & Hn & Hcoup).
  simpl in *. simplify_eq. simpl in Hcoup.
  destruct a as [| | |p q]; simpl in Hstep; try discriminate.
  - destruct call as [[evs|err']|], script as [|events script];
      try discriminate; injection Hstep as <-; simpl;
      by rewrite delivered_app, app_nil_r.
  - destruct call as [[[|e0 evs]|err']|]; try discriminate.
    injection Hstep as <-. simpl. by rewrite delivered_app, app_nil_r.
  - destruct p, q; try discriminate;
      destruct err, gpc; try (exfalso; exact Hcoup);
      try (destruct call as [[[|e0 evs]|err']|]); try (destruct caller);
      sync_cases Hstep; injection Hstep as <-; simpl;
      rewrite delivered_app, delivered_one; simpl; by rewrite app_nil_r.
Qed.

(** X12. Once [Listen] has returned, no event is delivered any more; the
    receive loop can still take one event from a publisher, which it keeps
    for good. *)
Theorem nothing_delivered_after_listen_returns m (app : App) exclusive script
    s err ls s' :
  reachable_from (init m app exclusive script) s ->
  listener_pc s = Some (LReturned err) ->
  run ls s = Some s' ->
  listener_pc s' = Some (LReturned err)
  /\ delivered (s_trace s') = delivered (s_trace s)
  /\ length (published (s_trace s')) <= S (length (delivered (s_trace s))).
Proof.
  intros Hreach. apply invariant_reachable in Hreach as Hinv.
  clear Hreach. revert s Hinv. induction ls as [|a ls IH]; intros s Hinv Hl; simpl.
  - intros [= <-]. split_and!; try done.
    rewrite (published_delivered_held _ Hinv), length_app.
    destruct (phase_of _); simpl; lia.
  - destruct (step a s) as [s1|] eqn:Hstep; [|done]. intros Hrun.
    destruct (returned_step _ _ _ _ Hinv Hstep Hl) as [Hl1 Hd1].
    destruct (IH s1 (invariant_step _ _ _ Hinv Hstep) Hl1 Hrun)
      as (? & Hd & Hlen).
    split_and!; [done | congruence | by rewrite <- Hd1].
Qed.

(** *** The channels *)

Lemma protocol_obs_step a s s' :
  invariant s -> Forall protocol_obs (s_trace s) -> step a s = Some s' ->
  Forall protocol_obs (s_trace s').
Proof.
  intros [Hbus Hstop Hthr Hph Hcalls Hch] Hok Hstep.
  destruct s as [next [pubc started] loop listener stop caller [call script] t].
  unfold threads_ok, loop_pc_of in *. simpl in *. subst pubc stop.
  destruct listener as [m app excl|[lpc lm lstop [treg cc ce cr cx] lapp llog lcalls]];
    simpl in *.
  - destruct Hthr as (-> & -> & ->).
    destruct a as [| | |p q]; simpl in Hstep.
    + injection Hstep as <-. simpl. apply Forall_app. by repeat constructor.
    + destruct call as [[evs|err]|], script as [|events script];
        try discriminate; injection Hstep as <-; simpl;
        apply Forall_app; by repeat constructor.
    + destruct call as [[[|e evs]|err]|]; try discriminate.
      simpl in Hstep. injection Hstep as <-. simpl.
      apply Forall_app; by repeat constructor.
    + destruct p, q; try discriminate; simpl in Hstep;
        destruct call as [[[|e evs]|err]|]; try discriminate;
        destruct caller; try discriminate.
  - destruct Hthr as ([gopts gpub gpc] & -> & -> & Ho & Hp & Hc & He & Hr & Hs & Hn & Hcoup).
    simpl in *. subst.
    destruct a as [| | |p q]; simpl in Hstep.
    + discriminate.
    + destruct call as [[evs|err]|], script as [|events script];
        try discriminate; injection Hstep as <-; simpl;
        apply Forall_app; by repeat constructor.
    + destruct call as [[[|e evs]|err]|]; try discriminate.
      injection Hstep as <-. simpl. apply Forall_app; by repeat constructor.
    + destruct p, q; try discriminate;
        destruct lpc as [|ack|cs|cs|[e|]], gpc as [|ch|e' ackc|ackc];
        simpl in Hcoup; try (exfalso; exact Hcoup); try discriminate;
        try (destruct call as [[[|e0 evs]|err]|]); try (destruct caller);
        sync_cases Hstep; injection Hstep as <-; simpl;
        (apply Forall_app; split;
         [done | repeat constructor; simpl; try done; lia]).
Qed.

Lemma protocol_obs_reachable m (app : App) exclusive script s :
  reachable_from (init m app exclusive script) s ->
  Forall protocol_obs (s_trace s).
Proof.
  intros [ls Hrun].
  assert (H : forall ls s0 s1,
             invariant s0 -> Forall protocol_obs (s_trace s0) ->
             run ls s0 = Some s1 -> Forall protocol_obs (s_trace s1)).
  { clear. induction ls as [|a ls IH]; intros s0 s1 Hinv Hok; simpl.
    - by intros [= <-].
    - destruct (step a s0) as [s2|] eqn:Hstep; [|done].
      apply IH; [by eapply invariant_step | by eapply protocol_obs_step]. }
  eapply H; [apply invariant_init | constructor | exact Hrun].
Qed.

(** X13. [PublishEvents] never returns an error: every return of every
    call is nil, the calls that dropped their batch included. *)
Theorem publish_always_returns_nil m (app : App) exclusive script s err :
  reachable_from (init m app exclusive script) s ->
  OReturn err ∈ s_trace s -> err = None.
Proof.
  intros Hreach Hin. apply protocol_obs_reachable in Hreach.
  rewrite Forall_forall in Hreach. by apply Hreach in Hin.
Qed.

(** X14. The in-memory bus never uses the error channel: no
    communication ever takes place on it, so [Listen] on this bus never
    takes its error case. *)
Theorem memory_bus_never_reports_an_error m (app : App) exclusive script s l
    p q v :
  reachable_from (init m app exclusive script) s ->
  s_listener s = Started l ->
  OComm p q (Error (l_options l)) v ∉ s_trace s.
Proof.
  intros Hreach Hl. apply invariant_reachable in Hreach as Hinv.
  apply protocol_obs_reachable in Hreach.
  destruct (invariant_listener_started _ _ Hinv Hl)
    as (g & _ & _ & _ & _ & He & _).
  rewrite Forall_forall in Hreach. rewrite He.
  intros Hin. apply Hreach in Hin.
  destruct p, q, v as [| | | |[? ?]]; simpl in Hin; try done; lia.
Qed.

(** *** Which channel answers which *)

(** The loop waits for an acknowledgment right after a delivery. *)
Lemma track_waiting_last hs a :
  track Idle hs = Some (Waiting a) ->
  exists hs' e, hs = hs' ++ [Del e a].
Proof.
  destruct hs as [|h hs _] using rev_ind; [done|].
  intros H. apply track_split in H as (ph1 & _ & H).
  simpl in H. destruct (advance ph1 h) as [ph2|] eqn:Hadv; [|done].
  injection H as ->.
  destruct h as [e|e a'|c], ph1 as [|e'|a'']; simpl in Hadv;
    try discriminate; repeat case_decide; simplify_eq.
  by exists hs, e'.
Qed.

(** The last handshake step of a stretch of an execution is one of its
    observations, with no handshake step after it. *)
Lemma handshakes_snoc_inv t hs h :
  handshakes t = hs ++ [h] ->
  exists u o u',
    t = u ++ o :: u' /\ handshake_of o = Some h /\ handshakes u' = [].
Proof.
  induction t as [|o t IH] using rev_ind; [by destruct hs|].
  rewrite handshakes_app. unfold handshakes at 2. simpl.
  destruct (handshake_of o) as [h0|] eqn:Ho; simpl.
  - intros H. apply app_inj_tail in H as [_ ->]. by exists t, o, [].
  - rewrite app_nil_r. intros H.
    apply IH in H as (u & o' & u' & -> & Ho' & Hu').
    exists u, o', (u' ++ [o]). split_and!; [by rewrite <- app_assoc | done |].
    rewrite handshakes_app, Hu'. unfold handshakes. simpl. by rewrite Ho.
Qed.

(** An acknowledgment goes on the channel of the delivery before it. *)
Lemma ack_answers_delivery (s : system App) t1 c b t2 :
  invariant s ->
  s_trace s = t1 ++ OComm Listener Loop c (VBool b) :: t2 ->
  exists u1 c' e u2,
    t1 = u1 ++ OComm Loop Listener c' (VAccept (mkAccept e c)) :: u2
    /\ handshakes u2 = [].
Proof.
  intros Hinv Heq. pose proof (inv_phase _ Hinv) as Hph.
  rewrite Heq in Hph.
  change (t1 ++ OComm Listener Loop c (VBool b) :: t2)
    with (t1 ++ [OComm Listener Loop c (VBool b)] ++ t2) in Hph.
  rewrite !handshakes_app in Hph.
  apply track_split in Hph as (ph1 & H1 & Hph).
  apply track_split in Hph as (ph2 & H2 & _).
  unfold handshakes in H2. simpl in H2.
  destruct ph1 as [|e'|a']; simpl in H2; try discriminate.
  case_decide; [subst a' | discriminate].
  apply track_waiting_last in H1 as (hs' & e & H1).
  apply handshakes_snoc_inv in H1 as (u & o & u' & -> & Ho & Hu').
  apply handshake_of_del_inv in Ho as (c' & ->).
  by exists u, c', e, u'.
Qed.

Lemma snoc_split {A} (t : list A) o t1 x t2 :
  t ++ [o] = t1 ++ x :: t2 ->
  (t2 = [] /\ t = t1 /\ o = x)
  \/ (exists t2', t2 = t2' ++ [o] /\ t = t1 ++ x :: t2').
Proof.
  destruct t2 as [|y t2 _] using rev_ind.
  - intros H. apply app_inj_tail in H as [-> ->]. by left.
  - intros H. right. exists t2.
    change (t1 ++ x :: t2 ++ [y]) with (t1 ++ (x :: t2) ++ [y]) in H.
    rewrite app_assoc in H. apply app_inj_tail in H as [-> ->]. done.
Qed.

Lemma replies_answer_snoc t o :
  replies_answer t ->
  (forall p q c err,
      o = OComm p q c (VError err) ->
      exists u1 p' q' c' u2,
        t = u1 ++ OComm p' q' c' (VChanError c) :: u2
        /\ Forall (fun o => is_comm o = false) u2) ->
  replies_answer (t ++ [o]).
Proof.
  intros Ht Ho t1 p q c err t2 Heq.
  apply snoc_split in Heq as [(_ & -> & ->)|(t2' & _ & ->)].
  - by eapply Ho.
  - by eapply Ht.
Qed.

Lemma replies_answer_quiet t os :
  replies_answer t ->
  Forall (fun o => forall p q c err, o <> OComm p q c (VError err)) os ->
  replies_answer (t ++ os).
Proof.
  intros Ht. revert t Ht. induction os as [|o os IH]; intros t Ht Hos.
  - by rewrite app_nil_r.
  - apply Forall_cons in Hos as [Ho Hos].
    change (o :: os) with ([o] ++ os). rewrite app_assoc.
    apply IH; [|done]. apply replies_answer_snoc; [done|].
    intros p q c err ->. by destruct (Ho p q c err).
Qed.

Lemma reply_step a (s s' : system App) :
  invariant s -> replies_answer (s_trace s) -> request_pending s ->
  step a s = Some s' ->
  replies_answer (s_trace s') /\ request_pending s'.
Proof.
  intros Hinv. pose proof Hinv as [Hbus Hstop Hthr Hph Hcalls Hch].
  intros Hra Hpend Hstep.
  destruct s as [next [pubc started] loop listener stop caller [call script] t].
  unfold threads_ok, loop_pc_of, request_pending in *.
  simpl in *. subst pubc stop.
  destruct listener as [m app excl|[lpc lm lstop [treg cc ce cr cx] lapp llog lcalls]];
    simpl in *.
  - destruct Hthr as (-> & -> & ->).
    destruct a as [| | |p q]; simpl in Hstep.
    + injection Hstep as <-. simpl. split.
      * apply replies_answer_quiet; [done|]. by repeat constructor.
      * intros cs Hg. discriminate.
    + destruct call as [[evs|err]|], script as [|events script];
        try discriminate; injection Hstep as <-; simpl;
        (split; [|done]);
        (apply replies_answer_quiet; [done|]); by repeat constructor.
    + destruct call as [[[|e evs]|err]|]; try discriminate.
      simpl in Hstep. injection Hstep as <-. simpl. split; [|done].
      apply replies_answer_quiet; [done|]. by repeat constructor.
    + destruct p, q; try discriminate; simpl in Hstep;
        destruct call as [[[|e evs]|err]|]; try discriminate;
        destruct caller; try discriminate.
  - destruct Hthr as ([gopts gpub gpc] & -> & -> & Ho & Hp & Hc & He & Hr & Hs & Hn & Hcoup).
    simpl in *. subst.
    destruct a as [| | |p q]; simpl in Hstep.
    + discriminate.
    + destruct call as [[evs|err]|], script as [|events script];
        try discriminate; injection Hstep as <-; simpl;
        (split;
         [ apply replies_answer_quiet; [done | by repeat constructor]
         | intros cs0 [= Hg];
           destruct (Hpend cs0 (f_equal Some Hg))
             as (u1 & p1 & q1 & c1 & u2 & -> & Hnc);
           eexists u1, p1, q1, c1, (u2 ++ [_]);
           (split; [by rewrite <- app_assoc |]);
           apply Forall_app; split; [exact Hnc | by repeat constructor] ]).
    + destruct call as [[[|e evs]|err]|]; try discriminate.
      injection Hstep as <-. simpl.
      split;
        [ apply replies_answer_quiet; [done | by repeat constructor]
        | intros cs0 [= Hg];
          destruct (Hpend cs0 (f_equal Some Hg))
            as (u1 & p1 & q1 & c1 & u2 & -> & Hnc);
          eexists u1, p1, q1, c1, (u2 ++ [_]);
          (split; [by rewrite <- app_assoc |]);
          apply Forall_app; split; [exact Hnc | by repeat constructor] ].
    + destruct p, q; try discriminate;
        destruct lpc as [|ack|cs|cs|[e|]], gpc as [|ch|e' ackc|ackc];
        simpl in Hcoup; try (exfalso; exact Hcoup); try discriminate;
        try (destruct call as [[[|e0 evs]|err]|]); try (destruct caller);
        sync_cases Hstep; injection Hstep as <-; simpl;
        (split;
         [ first
             [ apply replies_answer_quiet; [done | by repeat constructor]
             | apply replies_answer_snoc;
               [ done
               | intros p0 q0 c0 err0 Heq; injection Heq as <- <- <- <-;
                 by apply Hpend ] ]
         | intros cs0 [= Hg]; try discriminate;
           first
             [ subst; eexists t, _, _, _, []; split; [reflexivity | constructor]
             | destruct (Hpend cs0 (f_equal Some Hg))
                 as (u1 & p1 & q1 & c1 & u2 & -> & Hnc);
               eexists u1, p1, q1, c1, (u2 ++ [_]);
               (split; [by rewrite <- app_assoc |]);
               apply Forall_app; split; [exact Hnc | by repeat constructor] ] ]).
Qed.

Lemma reply_reachable m (app : App) exclusive script s :
  reachable_from (init m app exclusive script) s ->
  replies_answer (s_trace s).
Proof.
  intros [ls Hrun].
  assert (H : forall ls (s0 s1 : system App),
             invariant s0 -> replies_answer (s_trace s0) ->
             request_pending s0 ->
             run ls s0 = Some s1 ->
             replies_answer (s_trace s1) /\ request_pending s1).
  { clear. induction ls as [|a ls IH]; intros s0 s1 Hinv Hra Hp; simpl.
    - by intros [= <-].
    - destruct (step a s0) as [s2|] eqn:Hstep; [|done].
      destruct (reply_step _ _ _ Hinv Hra Hp Hstep) as [Hra2 Hp2].
      apply IH; [by eapply invariant_step | done | done]. }
  eapply H; [apply invariant_init | | | exact Hrun].
  - intros t1 p q c err t2 Heq. simpl in Heq. by destruct t1.
  - intros cs Hg. discriminate.
Qed.

(** X15. Each channel of the protocol carries one kind of message in one
    direction: events go from the client to the loop on the bus's channel,
    accepted events from the loop to [Listen] on [ReceiveEvent], the stop
    signal from the caller to [Listen], close requests from [Listen] to the
    loop on [Close]. [Listen] sends [true] to the loop on the
    [ProcessedSuccessfully] channel of the latest delivery, with no
    hand-over step in between; the loop sends nil to [Listen] on the
    response channel that the latest close request carried, with no
    communication in between. *)
Theorem channels_carry_their_messages m (app : App) exclusive script s l
    t1 p q c v t2 :
  reachable_from (init m app exclusive script) s ->
  s_listener s = Started l ->
  s_trace s = t1 ++ OComm p q c v :: t2 ->
  match v with
  | VEvent _ => p = Client /\ q = Loop /\ c = publishedEventsChannel (s_bus s)
  | VAccept a =>
      p = Loop /\ q = Listener /\ c = ReceiveEvent (l_options l)
      /\ Error (l_options l) < ProcessedSuccessfully a
  | VBool b =>
      (p = Listener /\ q = Loop /\ b = true /\ ReceiveEvent (l_options l) < c
       /\ exists u1 e u2,
            t1 = u1 ++ OComm Loop Listener (ReceiveEvent (l_options l))
                         (VAccept (mkAccept e c)) :: u2
            /\ handshakes u2 = [])
      \/ (p = Caller /\ q = Listener /\ c = l_stop l)
  | VChanError cs =>
      p = Listener /\ q = Loop /\ c = Close (l_options l)
      /\ ReceiveEvent (l_options l) < cs
  | VError err =>
      p = Loop /\ q = Listener /\ err = None /\ ReceiveEvent (l_options l) < c
      /\ exists u1 u2,
           t1 = u1 ++ OComm Listener Loop (Close (l_options l))
                        (VChanError c) :: u2
           /\ Forall (fun o => is_comm o = false) u2
  end.
Proof.
  intros Hreach Hl Heq. apply invariant_reachable in Hreach as Hinv.
  pose proof (reply_reachable _ _ _ _ _ Hreach) as Hra.
  apply protocol_obs_reachable in Hreach.
  rewrite Forall_forall in Hreach.
  assert (Hin : OComm p q c v ∈ s_trace s).
  { rewrite Heq. apply elem_of_app. right. left. }
  apply Hreach in Hin.
  destruct (invariant_listener_started _ _ Hinv Hl)
    as (g & _ & _ & _ & Hc & He & Hr & Hs & _).
  rewrite (inv_bus _ Hinv), Hc, He, Hr, Hs.
  destruct v as [e|b|err|cs|[e a]].
  - destruct p, q; simpl in *; done.
  - destruct p, q; simpl in *; try done; [|by right].
    left. destruct Hin as [-> Hlt]. split_and!; [done | done | done | lia |].
    destruct (ack_answers_delivery _ _ _ _ _ Hinv Heq)
      as (u1 & c' & e & u2 & -> & Hu2).
    exists u1, e, u2. split; [|done].
    assert (Hd : protocol_obs
                   (OComm Loop Listener c' (VAccept (mkAccept e c)))).
    { apply Hreach. rewrite Heq. apply elem_of_app. left.
      apply elem_of_app. right. left. }
    simpl in Hd. by destruct Hd as [-> _].
  - destruct p, q; simpl in *; try done.
    destruct Hin as [-> Hlt]. split_and!; [done | done | done | lia |].
    destruct (Hra _ _ _ _ _ _ Heq) as (u1 & p' & q' & c' & u2 & -> & Hnc).
    exists u1, u2. split; [|done].
    assert (Hd : protocol_obs (OComm p' q' c' (VChanError c))).
    { apply Hreach. rewrite Heq. apply elem_of_app. left.
      apply elem_of_app. right. left. }
    destruct p', q'; simpl in Hd; try done. by destruct Hd as [-> _].
  - destruct p, q; simpl in *; try done;
      destruct Hin; split_and!; (done || lia).
  - destruct p, q; simpl in *; try done;
      destruct Hin; split_and!; (done || lia).
Qed.

(** *** The handshake goes through *)

Ltac run_steps :=
  do 3 (unfold offer, accept, listen_recv, listen_send, loop_recv, loop_send,
          publish_send, at_pc, loop_at; simpl;
        rewrite ?decide_True by done).

Ltac open_started Hinv Hl :=
  let g := fresh "g" in
  destruct (invariant_listener_started _ _ Hinv Hl)
    as (g & ? & ? & ? & ? & ? & ? & ? & ? & ? & ?);
  match goal with s : system _ |- _ =>
    destruct s as [? ? ? ? ? ? [? ?] ?] end;
  match goal with l : Listening _ |- _ =>
    destruct l as [? ? ? [? ? ? ? ?] ? ? ?] end;
  destruct g as [? ? ?]; unfold loop_pc_of, listener_pc in *;
  simpl in *; simplify_eq;
  repeat match goal with
         | H : _ <$> Some _ = Some _ |- _ => injection H as H; simpl in H
         end;
  simplify_eq.

Lemma ack_goes_through s l a :
  invariant s -> s_listener s = Started l -> l_pc l = LAck a ->
  exists s' l',
    step (Sync Listener Loop) s = Some s'
    /\ s_listener s' = Started l' /\ l_pc l' = LSelect
    /\ loop_pc_of s' = Some BSelect
    /\ s_client s' = s_client s
    /\ s_caller s' = s_caller s
    /\ published (s_trace s') = published (s_trace s).
Proof.
  intros Hinv Hl Hpc. open_started Hinv Hl.
  match goal with H : coupled _ _ ?pc |- _ =>
    destruct pc; simpl in H; try (exfalso; exact H); destruct H as [<- ?] end.
  eexists _, _. split_and!.
  - run_steps. reflexivity.
  - reflexivity.
  - reflexivity.
  - reflexivity.
  - reflexivity.
  - reflexivity.
  - simpl. rewrite published_app. unfold published at 2. simpl.
    by rewrite app_nil_r.
Qed.

Lemma delivery_goes_through s l e a :
  invariant s -> s_listener s = Started l -> l_pc l = LSelect ->
  loop_pc_of s = Some (BDeliver e a) ->
  exists s' l',
    step (Sync Loop Listener) s = Some s'
    /\ s_listener s' = Started l' /\ l_pc l' = LAck a
    /\ loop_pc_of s' = Some (BAwaitAck a)
    /\ s_client s' = s_client s
    /\ s_caller s' = s_caller s
    /\ published (s_trace s') = published (s_trace s).
Proof.
  intros Hinv Hl Hpc Hg. open_started Hinv Hl.
  eexists _, _. split_and!.
  - run_steps. reflexivity.
  - reflexivity.
  - simpl. apply on_event_frame.
  - reflexivity.
  - reflexivity.
  - reflexivity.
  - simpl. rewrite published_app. unfold published at 2. simpl.
    by rewrite app_nil_r.
Qed.

Lemma hand_over_goes_through s l e rest :
  invariant s -> s_listener s = Started l -> l_pc l = LSelect ->
  loop_pc_of s = Some BSelect ->
  c_call (s_client s) = Some (PRange (e :: rest)) ->
  exists s',
    step (Sync Client Loop) s = Some s'
    /\ s_listener s' = Started l
    /\ loop_pc_of s' = Some (BDeliver e (s_next s))
    /\ c_call (s_client s') = Some (PRange rest)
    /\ published (s_trace s') = published (s_trace s) ++ [e].
Proof.
  intros Hinv Hl Hpc Hg Hcall. pose proof (inv_bus _ Hinv) as Hbus.
  open_started Hinv Hl.
  match goal with b : InMemoryEventBus |- _ => destruct b end.
  simpl in *. subst.
  eexists. split_and!.
  - run_steps. reflexivity.
  - reflexivity.
  - reflexivity.
  - reflexivity.
  - simpl. by rewrite published_app.
Qed.

(** From any state in which [Listen] is in its loop and not stopping, the
    pending handshake can be completed. *)
Lemma handshake_completes s :
  invariant s -> listening_on s ->
  exists ls s' l',
    run ls s = Some s'
    /\ s_listener s' = Started l' /\ l_pc l' = LSelect
    /\ loop_pc_of s' = Some BSelect
    /\ s_client s' = s_client s
    /\ s_caller s' = s_caller s
    /\ published (s_trace s') = published (s_trace s).
Proof.
  intros Hinv [(l & Hl & Hpc)|(l & a & Hl & Hpc)].
  - destruct (invariant_listener_started _ _ Hinv Hl)
      as (g & Hg & _ & _ & _ & _ & _ & _ & _ & _ & Hcoup).
    rewrite Hpc in Hcoup.
    destruct (b_pc g) as [|ch|e a|a] eqn:Hgpc; try (exfalso; exact Hcoup).
    + exists [], s, l. split_and!; try done.
      unfold loop_pc_of. rewrite Hg. exact (f_equal Some Hgpc).
    + assert (Hloop : loop_pc_of s = Some (BDeliver e a)).
      { unfold loop_pc_of. rewrite Hg. exact (f_equal Some Hgpc). }
      destruct (delivery_goes_through _ _ _ _ Hinv Hl Hpc Hloop)
        as (s1 & l1 & Hstep1 & Hl1 & Hpc1 & _ & Hc1 & Hk1 & Hp1).
      pose proof (invariant_step _ _ _ Hinv Hstep1) as Hinv1.
      destruct (ack_goes_through _ _ _ Hinv1 Hl1 Hpc1)
        as (s2 & l2 & Hstep2 & Hl2 & Hpc2 & Hg2 & Hc2 & Hk2 & Hp2).
      exists [Sync Loop Listener; Sync Listener Loop], s2, l2.
      split_and!; try done; try congruence.
      cbn [run]. rewrite Hstep1. cbn [run]. by rewrite Hstep2.
  - destruct (ack_goes_through _ _ _ Hinv Hl Hpc)
      as (s2 & l2 & Hstep2 & Hl2 & Hpc2 & Hg2 & Hc2 & Hk2 & Hp2).
    exists [Sync Listener Loop], s2, l2. split_and!; try done.
    cbn [run]. by rewrite Hstep2.
Qed.



(** X17. While [Listen] is in its loop and the stop case has not fired, a
    call of [PublishEvents] can always run to its end: there is an
    execution in which the rest of the batch is handed over in order and
    the call returns nil, [Listen] still being in its loop. *)
Theorem publish_can_complete m (app : App) exclusive script s events :
  reachable_from (init m app exclusive script) s ->
  listening_on s ->
  c_call (s_client s) = Some (PRange events) ->
  exists ls s',
    run ls s = Some s'
    /\ c_call (s_client s') = Some (PReturned None)
    /\ published (s_trace s') = published (s_trace s) ++ events
    /\ listening_on s'.
Proof.
  intros Hreach. apply invariant_reachable in Hreach as Hinv. clear Hreach.
  revert s Hinv. induction events as [|e rest IH]; intros s Hinv Hon Hcall.
  - exists [PublishReturn]. cbn [run step]. rewrite Hcall. cbn [publish_tau].
    eexists. split_and!; try reflexivity.
    + simpl. rewrite published_app. unfold published at 2. simpl.
      by rewrite !app_nil_r.
    + destruct Hon as [(l & Hl & Hpc)|(l & a & Hl & Hpc)];
        [left; by exists l | right; by exists l, a].
  - destruct (handshake_completes _ Hinv Hon)
      as (ls0 & s0 & l0 & Hrun0 & Hl0 & Hpc0 & Hg0 & Hc0 & _ & Hp0).
    pose proof (invariant_run _ _ _ Hinv Hrun0) as Hinv0.
    rewrite <- Hc0 in Hcall.
    destruct (hand_over_goes_through _ _ _ _ Hinv0 Hl0 Hpc0 Hg0 Hcall)
      as (s1 & Hstep1 & Hl1 & Hg1 & Hc1 & Hp1).
    pose proof (invariant_step _ _ _ Hinv0 Hstep1) as Hinv1.
    destruct (IH s1 Hinv1) as (ls2 & s2 & Hrun2 & Hc2 & Hp2 & Hon2).
    { left. by exists l0. }
    { done. }
    exists (ls0 ++ Sync Client Loop :: ls2), s2. split_and!; try done.
    + rewrite run_app, Hrun0. cbn [run]. by rewrite Hstep1.
    + rewrite Hp2, Hp1, Hp0. by rewrite <- app_assoc.
Qed.

Lemma close_goes_through s l :
  invariant s -> s_listener s = Started l -> l_pc l = LSelect ->
  loop_pc_of s = Some BSelect -> s_caller s = true ->
  exists s',
    run [Sync Caller Listener; Sync Listener Loop; Sync Loop Listener] s
    = Some s'
    /\ listener_pc s' = Some (LReturned None)
    /\ loop_pc_of s' = Some BSelect.
Proof.
  intros Hinv Hl Hpc Hg Hcaller. open_started Hinv Hl.
  eexists. split_and!.
  - cbn [run step]. do 6 run_steps. reflexivity.
  - reflexivity.
  - reflexivity.
Qed.

(** X20. While [Listen] is in its loop, a stop can always be carried
    through: there is an execution in which the pending handshake is
    completed, the stop signal is taken, the close request is answered and
    [Listen] returns nil. *)
Theorem listen_can_always_stop m (app : App) exclusive script s :
  reachable_from (init m app exclusive script) s ->
  listening_on s ->
  s_caller s = true ->
  exists ls s',
    run ls s = Some s' /\ listener_pc s' = Some (LReturned None).
Proof.
  intros Hreach Hon Hcaller. apply invariant_reachable in Hreach as Hinv.
  destruct (handshake_completes _ Hinv Hon)
    as (ls0 & s0 & l0 & Hrun0 & Hl0 & Hpc0 & Hg0 & _ & Hk0 & _).
  pose proof (invariant_run _ _ _ Hinv Hrun0) as Hinv0.
  rewrite <- Hk0 in Hcaller.
  destruct (close_goes_through _ _ Hinv0 Hl0 Hpc0 Hg0 Hcaller)
    as (s' & Hrun1 & Hret & _).
  exists (ls0 ++ [Sync Caller Listener; Sync Listener Loop;
                  Sync Loop Listener]), s'.
  split; [|done]. by rewrite run_app, Hrun0.
Qed.

(** *** Acknowledgment channels *)

Lemma fresh_for_app c t1 t2 :
  fresh_for c (t1 ++ t2) <-> fresh_for c t1 /\ fresh_for c t2.
Proof. unfold fresh_for. apply Forall_app. Qed.

Lemma fresh_for_bound c n t :
  Forall (fun o => Forall (fun c' => c' < n) (chans_of o)) t ->
  n <= c -> fresh_for c t.
Proof.
  intros H Hle. unfold fresh_for. eapply Forall_impl; [exact H|].
  intros o Ho Hin. simpl in Ho. rewrite Forall_forall in Ho.
  apply Ho in Hin. lia.
Qed.

Lemma deliveries_fresh_snoc t o :
  deliveries_fresh t ->
  (forall c a,
      o = OComm Loop Listener c (VAccept a) ->
      fresh_for (ProcessedSuccessfully a) t) ->
  deliveries_fresh (t ++ [o]).
Proof.
  intros Ht Ho t1 c a t2 Heq.
  apply snoc_split in Heq as [(_ & -> & ->)|(t2' & _ & ->)].
  - by eapply Ho.
  - by eapply Ht.
Qed.

Lemma deliveries_fresh_quiet t os :
  deliveries_fresh t ->
  Forall (fun o => forall c a, o <> OComm Loop Listener c (VAccept a)) os ->
  deliveries_fresh (t ++ os).
Proof.
  intros Ht. revert t Ht. induction os as [|o os IH]; intros t Ht Hos.
  - by rewrite app_nil_r.
  - apply Forall_cons in Hos as [Ho Hos].
    change (o :: os) with ([o] ++ os). rewrite app_assoc.
    apply IH; [|done]. apply deliveries_fresh_snoc; [done|].
    intros c a ->. by destruct (Ho c a).
Qed.

Lemma fresh_step a s s' :
  invariant s -> deliveries_fresh (s_trace s) -> held_ack_fresh s ->
  step a s = Some s' ->
  deliveries_fresh (s_trace s') /\ held_ack_fresh s'.
Proof.
  intros Hinv. pose proof Hinv as [Hbus Hstop Hthr Hph Hcalls Hch].
  intros Hdf Hheld Hstep.
  destruct s as [next [pubc started] loop listener stop caller [call script] t].
  unfold threads_ok, loop_pc_of, held_ack_fresh in *.
  simpl in *. subst pubc stop.
  destruct listener as [m app excl|[lpc lm lstop [treg cc ce cr cx] lapp llog lcalls]];
    simpl in *.
  - destruct Hthr as (-> & -> & ->).
    destruct a as [| | |p q]; simpl in Hstep.
    + injection Hstep as <-. simpl. split; [|done].
      apply deliveries_fresh_quiet; [done|]. by repeat constructor.
    + destruct call as [[evs|err]|], script as [|events script];
        try discriminate; injection Hstep as <-; simpl;
        (split; [|done]);
        (apply deliveries_fresh_quiet; [done|]); by repeat constructor.
    + destruct call as [[[|e evs]|err]|]; try discriminate.
      simpl in Hstep. injection Hstep as <-. simpl. split; [|done].
      apply deliveries_fresh_quiet; [done|]. by repeat constructor.
    + destruct p, q; try discriminate; simpl in Hstep;
        destruct call as [[[|e evs]|err]|]; try discriminate;
        destruct caller; try discriminate.
  - destruct Hthr as ([gopts gpub gpc] & -> & -> & Ho & Hp & Hc & He & Hr & Hs & Hn & Hcoup).
    simpl in *. subst.
    assert (Hkeep : forall os e0 a0,
      gpc = BDeliver e0 a0 -> 5 <= a0 ->
      Forall (fun o => Forall (fun c => c < 5) (chans_of o)) os ->
      fresh_for a0 (t ++ os)).
    { intros os e0 a0 -> Ha Hos. apply fresh_for_app. split.
      - by eapply Hheld.
      - by eapply fresh_for_bound. }
    destruct a as [| | |p q]; simpl in Hstep.
    + discriminate.
    + destruct call as [[evs|err]|], script as [|events script];
        try discriminate; injection Hstep as <-; simpl;
        (split;
         [ apply deliveries_fresh_quiet; [done | by repeat constructor]
         | intros e0 a0 [= Hg];
           destruct lpc as [|?|?|?|[?|]]; rewrite Hg in Hcoup;
           simpl in Hcoup; try (exfalso; exact Hcoup);
           (eapply Hkeep; [exact Hg | lia | by repeat constructor]) ]).
    + destruct call as [[[|e evs]|err]|]; try discriminate.
      injection Hstep as <-. simpl.
      split;
        [ apply deliveries_fresh_quiet; [done | by repeat constructor]
        | intros e0 a0 [= Hg];
          destruct lpc as [|?|?|?|[?|]]; rewrite Hg in Hcoup;
          simpl in Hcoup; try (exfalso; exact Hcoup);
          (eapply Hkeep; [exact Hg | lia | by repeat constructor]) ].
    + destruct p, q; try discriminate;
        destruct lpc as [|ack|cs|cs|[e|]], gpc as [|ch|e' ackc|ackc];
        simpl in Hcoup; try (exfalso; exact Hcoup); try discriminate;
        try (destruct call as [[[|e0 evs]|err]|]); try (destruct caller);
        sync_cases Hstep; injection Hstep as <-; simpl;
        (split;
         [ apply deliveries_fresh_snoc;
           [ done
           | intros c0 a0 Heq; try discriminate;
             injection Heq as <- <-; simpl; by eapply Hheld ]
         | intros e1 a1 [= Hg1 Hg2]; subst;
           first
             [ eapply Hkeep; [reflexivity | lia | repeat constructor; simpl; lia]
             | apply fresh_for_app; split;
               [ by eapply fresh_for_bound
               | repeat constructor; simpl;
                 intros Hin; apply list_elem_of_singleton in Hin; lia ] ] ]).
Qed.

(** X18. The acknowledgment channel of a delivery is a channel no earlier
    communication names: every item gets a channel of its own, and no two
    deliveries share one. *)
Theorem acknowledgment_channels_are_fresh m (app : App) exclusive script s :
  reachable_from (init m app exclusive script) s ->
  (forall t1 c a t2,
      s_trace s = t1 ++ OComm Loop Listener c (VAccept a) :: t2 ->
      fresh_for (ProcessedSuccessfully a) t1)
  /\ (forall t1 c1 a1 t2 c2 a2 t3,
        s_trace s
        = t1 ++ OComm Loop Listener c1 (VAccept a1)
             :: t2 ++ OComm Loop Listener c2 (VAccept a2) :: t3 ->
        ProcessedSuccessfully a1 <> ProcessedSuccessfully a2).
Proof.
  intros [ls Hrun].
  assert (H : forall ls s0 s1,
             invariant s0 -> deliveries_fresh (s_trace s0) ->
             held_ack_fresh s0 -> run ls s0 = Some s1 ->
             deliveries_fresh (s_trace s1)).
  { clear. induction ls as [|a ls IH]; intros s0 s1 Hinv Hdf Hh; simpl.
    - by intros [= <-].
    - destruct (step a s0) as [s2|] eqn:Hstep; [|done].
      destruct (fresh_step _ _ _ Hinv Hdf Hh Hstep).
      apply IH; [by eapply invariant_step | done..]. }
  assert (Hdf : deliveries_fresh (s_trace s)).
  { eapply H; [apply invariant_init | | | exact Hrun].
    - intros t1 c a t2 Heq. by destruct t1.
    - intros e a Hpc. discriminate. }
  split; [exact Hdf|].
  intros t1 c1 a1 t2 c2 a2 t3 Heq Hsame.
  specialize (Hdf (t1 ++ OComm Loop Listener c1 (VAccept a1) :: t2) c2 a2 t3).
  rewrite <- app_assoc in Hdf. specialize (Hdf Heq).
  apply fresh_for_app in Hdf as [_ Hdf].
  apply Forall_cons in Hdf as [Hnot _]. apply Hnot. simpl.
  rewrite Hsame. by right; left.
Qed.

End SystemMore.

(** ** Setting up a dispatch manager *)

Section ManagerFacts.
Context {App : Type}.




End ManagerFacts.

(** ** The further properties at sample values *)

Ltac concrete Hrun := vm_compute in Hrun; injection Hrun as <-.

Lemma dispatch_ignores_other_types_witness :
  DispatchEvent
    (Dispatcher.RegisterEventHandler (Some (Iface "Unhandled" ""))
       (Sample.adds 5) (versionedEventDispatcher Sample.manager))
    (Sample.event 1) 0
  = DispatchEvent (versionedEventDispatcher Sample.manager) (Sample.event 1) 0.
Proof.
  apply (dispatch_ignores_other_types
           (versionedEventDispatcher Sample.manager)
           (Some (Iface "Unhandled" "")) (Sample.adds 5) (Sample.event 1) 0).
  vm_compute. discriminate.
Defined.

Lemma dispatch_nil_means_all_succeeded_witness :
  [TypeSpecific 0; Global 0]
  = all_slots (register_all Sample.registrations) (Sample.event 1).
Proof.
  apply (dispatch_nil_means_all_succeeded
           (register_all Sample.registrations) (Sample.event 1) 0 101
           [TypeSpecific 0; Global 0]).
  vm_compute. reflexivity.
Defined.

Lemma dispatch_error_is_first_failure_witness :
  exists pre h post st1,
    handlers_for (versionedEventDispatcher Sample.manager)
      (TypeOf (Event (Sample.event 1)))
    ++ globalHandlers (versionedEventDispatcher Sample.manager)
    = pre ++ h :: post
    /\ succeeds (Sample.event 1) pre 0 st1
    /\ h (Sample.event 1) st1 = (1, Some "boom")
    /\ [TypeSpecific 0]
       = take (S (length pre))
           (all_slots (versionedEventDispatcher Sample.manager)
              (Sample.event 1)).
Proof.
  apply (dispatch_error_is_first_failure
           (versionedEventDispatcher Sample.manager) (Sample.event 1) 0 1
           [TypeSpecific 0] "boom").
  vm_compute. reflexivity.
Defined.

Lemma swap_exchanges_witness :
  Len [Cases.was 2; Cases.was 1; Cases.was 3] = Len Cases.slice
  /\ [Cases.was 2; Cases.was 1; Cases.was 3] ≡ₚ Cases.slice.
Proof.
  destruct (swap_exchanges Cases.slice 0 2
              [Cases.was 2; Cases.was 1; Cases.was 3]) as (H1 & H2 & _).
  - vm_compute. reflexivity.
  - split; assumption.
Defined.

Lemma listen_dispatches_delivered_events_witness :
  exists s l,
    run Cases.deliver_one (Sample.start [[Sample.event 1]]) = Some s
    /\ s_listener s = Started l
    /\ logged_events (l_log l) = delivered (s_trace s)
    /\ l_app l
       = dispatch_all (versionedEventDispatcher Sample.manager)
           (delivered (s_trace s)) 0.
Proof.
  destruct (run Cases.deliver_one (Sample.start [[Sample.event 1]]))
    as [s|] eqn:Hrun; [|vm_compute in Hrun; discriminate].
  destruct (s_listener s) as [|l] eqn:Hl;
    [exfalso; concrete Hrun; discriminate|].
  destruct (listen_dispatches_delivered_events Sample.manager 0 false
              [[Sample.event 1]] s l) as (_ & H1 & H2).
  - exists Cases.deliver_one. exact Hrun.
  - exact Hl.
  - exists s, l. split_and!; [reflexivity | exact Hl | assumption..].
Defined.

Lemma events_come_from_batches_in_order_witness :
  exists s,
    run Cases.deliver_one (Sample.start [[Sample.event 1; Sample.event 2]])
    = Some s
    /\ published (s_trace s) ++ unsent (c_call (s_client s))
       = accepted false (s_trace s).
Proof.
  destruct (run Cases.deliver_one
              (Sample.start [[Sample.event 1; Sample.event 2]]))
    as [s|] eqn:Hrun; [|vm_compute in Hrun; discriminate].
  exists s. split; [reflexivity|].
  apply (events_come_from_batches_in_order Sample.manager 0 false
           [[Sample.event 1; Sample.event 2]]).
  exists Cases.deliver_one. exact Hrun.
Defined.

Lemma bus_stays_active_witness :
  exists s,
    run Cases.stop_and_close (Sample.start []) = Some s
    /\ (startReceiving (s_bus s) = true <-> OListen ∈ s_trace s).
Proof.
  destruct (run Cases.stop_and_close (Sample.start []))
    as [s|] eqn:Hrun; [|vm_compute in Hrun; discriminate].
  exists s. split; [reflexivity|].
  apply (bus_stays_active Sample.manager 0 false []).
  exists Cases.stop_and_close. exact Hrun.
Defined.

Lemma nothing_delivered_after_listen_returns_witness :
  exists s s',
    run Cases.stop_and_close (Sample.start [[Sample.event 1]]) = Some s
    /\ run [PublishCall; Sync Client Loop] s = Some s'
    /\ delivered (s_trace s') = delivered (s_trace s).
Proof.
  destruct (run Cases.stop_and_close (Sample.start [[Sample.event 1]]))
    as [s|] eqn:Hrun; [|vm_compute in Hrun; discriminate].
  assert (Hpc : listener_pc s = Some (LReturned None)).
  { concrete Hrun. reflexivity. }
  destruct (run [PublishCall; Sync Client Loop] s) as [s'|] eqn:Hrun2;
    [|exfalso; concrete Hrun; vm_compute in Hrun2; discriminate].
  destruct (nothing_delivered_after_listen_returns Sample.manager 0 false
              [[Sample.event 1]] s None [PublishCall; Sync Client Loop] s')
    as (_ & H & _).
  - exists Cases.stop_and_close. exact Hrun.
  - exact Hpc.
  - exact Hrun2.
  - exists s, s'. split_and!; [reflexivity | exact Hrun2 | exact H].
Defined.

Lemma publish_always_returns_nil_witness :
  exists s,
    run [PublishCall] (Sample.start [[Sample.event 1]]) = Some s
    /\ OReturn None ∈ s_trace s
    /\ @None error = None.
Proof.
  destruct (run [PublishCall] (Sample.start [[Sample.event 1]]))
    as [s|] eqn:Hrun; [|vm_compute in Hrun; discriminate].
  assert (Hin : OReturn None ∈ s_trace s).
  { concrete Hrun. right. left. }
  exists s. split_and!; [reflexivity | exact Hin |].
  apply (publish_always_returns_nil Sample.manager 0 false
           [[Sample.event 1]] s None).
  - exists [PublishCall]. exact Hrun.
  - exact Hin.
Defined.

Lemma memory_bus_never_reports_an_error_witness :
  exists s l,
    run Cases.stop_and_close (Sample.start []) = Some s
    /\ s_listener s = Started l
    /\ OComm Loop Listener (Error (l_options l)) (VError None) ∉ s_trace s.
Proof.
  destruct (run Cases.stop_and_close (Sample.start []))
    as [s|] eqn:Hrun; [|vm_compute in Hrun; discriminate].
  destruct (s_listener s) as [|l] eqn:Hl;
    [exfalso; concrete Hrun; discriminate|].
  exists s, l. split_and!; [reflexivity | exact Hl |].
  apply (memory_bus_never_reports_an_error Sample.manager 0 false [] s l).
  - exists Cases.stop_and_close. exact Hrun.
  - exact Hl.
Defined.

Lemma channels_carry_their_messages_witness :
  exists s l t1,
    run (Cases.deliver_one ++ [Sync Listener Loop])
      (Sample.start [[Sample.event 1]]) = Some s
    /\ s_listener s = Started l
    /\ s_trace s = t1 ++ [OComm Listener Loop 5 (VBool true)]
    /\ exists u1 e u2,
         t1 = u1 ++ OComm Loop Listener (ReceiveEvent (l_options l))
                      (VAccept (mkAccept e 5)) :: u2
         /\ handshakes u2 = [].
Proof.
  destruct (run (Cases.deliver_one ++ [Sync Listener Loop])
              (Sample.start [[Sample.event 1]]))
    as [s|] eqn:Hrun; [|vm_compute in Hrun; discriminate].
  destruct (s_listener s) as [|l] eqn:Hl;
    [exfalso; concrete Hrun; discriminate|].
  assert (Heq : s_trace s
                = take 4 (s_trace s) ++ [OComm Listener Loop 5 (VBool true)]).
  { concrete Hrun. vm_compute. reflexivity. }
  pose proof (channels_carry_their_messages Sample.manager 0 false
                [[Sample.event 1]] s l (take 4 (s_trace s)) Listener Loop 5
                (VBool true) []
                (ex_intro _ (Cases.deliver_one ++ [Sync Listener Loop]) Hrun)
                Hl Heq) as H.
  destruct H as [(_ & _ & _ & _ & H)|(H & _)]; [|discriminate].
  exists s, l, (take 4 (s_trace s)).
  split_and!; [reflexivity | exact Hl | exact Heq | exact H].
Defined.


Lemma publish_can_complete_witness :
  exists s ls s',
    run Cases.attach (Sample.start [[Sample.event 1; Sample.event 2]])
    = Some s
    /\ run ls s = Some s'
    /\ c_call (s_client s') = Some (PReturned None).
Proof.
  destruct (run Cases.attach
              (Sample.start [[Sample.event 1; Sample.event 2]]))
    as [s|] eqn:Hrun; [|vm_compute in Hrun; discriminate].
  destruct (publish_can_complete Sample.manager 0 false
              [[Sample.event 1; Sample.event 2]] s
              [Sample.event 1; Sample.event 2])
    as (ls & s' & H1 & H2 & _).
  - exists Cases.attach. exact Hrun.
  - concrete Hrun. left. eexists. split; reflexivity.
  - concrete Hrun. reflexivity.
  - exists s, ls, s'. split_and!; [reflexivity | assumption..].
Defined.

Lemma acknowledgment_channels_are_fresh_witness :
  fresh_for 5
    [OListen; OCall [Sample.event 1];
     OComm Client Loop 0 (VEvent (Sample.event 1))].
Proof.
  destruct (run Cases.deliver_one (Sample.start [[Sample.event 1]]))
    as [s|] eqn:Hrun.
  - destruct (acknowledgment_channels_are_fresh Sample.manager 0 false
                [[Sample.event 1]] s) as [H _].
    + exists Cases.deliver_one. exact Hrun.
    + apply (H [OListen; OCall [Sample.event 1];
                OComm Client Loop 0 (VEvent (Sample.event 1))]
               4 (mkAccept (Sample.event 1) 5) []).
      concrete Hrun. reflexivity.
  - vm_compute in Hrun. discriminate.
Defined.

Lemma listen_can_always_stop_witness :
  exists s ls s',
    run Cases.deliver_one (Sample.start [[Sample.event 1]]) = Some s
    /\ run ls s = Some s'
    /\ listener_pc s' = Some (LReturned None).
Proof.
  destruct (run Cases.deliver_one (Sample.start [[Sample.event 1]]))
    as [s|] eqn:Hrun; [|vm_compute in Hrun; discriminate].
  destruct (listen_can_always_stop Sample.manager 0 false
              [[Sample.event 1]] s) as (ls & s' & H1 & H2).
  - exists Cases.deliver_one. exact Hrun.
  - concrete Hrun. right. eexists _, _. split; reflexivity.
  - concrete Hrun. reflexivity.
  - exists s, ls, s'. split_and!; [reflexivity | assumption..].
Defined.

